(** * biternal: the reversible state layer (package [core/state])

    A shallow embedding of the key/type scheme ([state_type.go],
    [state_object.go]), the change journal ([journal.go]), the pod state
    object, the slim pod encoding ([snapshot/pod.go]) and the trie dump
    ([DumpToCollector]), followed by the properties proved about them.

    Conventions.
    - A Go byte is a [Byte.byte]; a byte slice is a [list byte].
    - A Go call that may panic returns an [outcome]: [Done v] for a normal
      return, [Panicked msg] for a panic.
    - [uint64], [uint] and [int] values are integers in [Z] with the
      wrap-around of the Go operation written out. *)

From Stdlib Require Import ZArith NArith Lia.
From Stdlib Require Import Strings.Byte Strings.Ascii DecimalString.
From stdpp Require Import base option list gmap strings.

Local Open Scope Z_scope.

(** ** Panics *)

Inductive outcome (A : Type) : Type :=
  | Done (a : A)
  | Panicked (msg : string).
Arguments Done {A} a.
Arguments Panicked {A} msg.

Definition outcome_bind {A B} (f : A → outcome B) (m : outcome A) : outcome B :=
  match m with
  | Done a => f a
  | Panicked msg => Panicked msg
  end.

#[global] Instance outcome_ret : MRet outcome := @Done.
#[global] Instance outcome_mbind : MBind outcome := @outcome_bind.

(** Messages of the run-time panics of Go used below. *)
Definition index_out_of_range : string := "index out of range".
Definition slice_out_of_range : string := "slice bounds out of range".
Definition nil_dereference : string := "nil pointer dereference".

(** [b[0]] *)
Definition index0 (b : list byte) : outcome byte :=
  match b with
  | [] => Panicked index_out_of_range
  | x :: _ => Done x
  end.

(** [b[1:]] *)
Definition slice_from1 (b : list byte) : outcome (list byte) :=
  match b with
  | [] => Panicked slice_out_of_range
  | _ :: t => Done t
  end.

(** ** Fixed-width integers *)

Definition wrap_uint64 (z : Z) : Z := z mod 2 ^ 64.
Definition wrap_int (z : Z) : Z := (z + 2 ^ 63) mod 2 ^ 64 - 2 ^ 63.

(** ** [math/big]: [Int.Bytes] and [Int.SetBytes]

    [Bytes] is the big-endian encoding of the absolute value, without
    leading zero bytes; [SetBytes] reads a big-endian unsigned integer. *)

Definition byte_of_N (n : N) : byte :=
  default "000"%byte (Byte.of_N (n mod 256)).

Fixpoint nat_bytes (fuel : nat) (n : N) (acc : list byte) : list byte :=
  match fuel with
  | O => acc
  | S fuel' =>
      if (n =? 0)%N then acc
      else nat_bytes fuel' (n / 256)%N (byte_of_N n :: acc)
  end.

Definition big_Bytes (x : Z) : list byte :=
  let n := Z.abs_N x in nat_bytes (N.to_nat (N.size n)) n [].

Definition bytes_value (b : list byte) : N :=
  fold_left (λ acc x, (acc * 256 + Byte.to_N x)%N) b 0%N.

Definition big_SetBytes (b : list byte) : Z := Z.of_N (bytes_value b).

(** [new(big.Int).SetBytes] never returns nil; a [*big.Int] that may be nil
    is an [option Z].  Calling [Bytes] through a nil pointer panics. *)
Definition bigInt_Bytes (x : option Z) : outcome (list byte) :=
  match x with
  | None => Panicked nil_dereference
  | Some v => Done (big_Bytes v)
  end.

(** [*p] for a pointer to a value that is not written again. *)
Definition deref {A} (p : option A) : outcome A :=
  match p with
  | None => Panicked nil_dereference
  | Some v => Done v
  end.

(** ** [common]: addresses and hashes *)

Definition AddressLength : nat := 20.
Definition HashLength : nat := 32.

(** A [common.Address] is a [[20]byte], a [common.Hash] a [[32]byte]; both
    are represented by their bytes. *)
Definition Address : Type := list byte.
Definition Hash : Type := list byte.

Definition is_address (a : Address) : Prop := length a = AddressLength.

(** Modelled from the spec: the body of [common.BytesToAddress] (package
    [common] holds it). An address is a fixed-length identifier recovered
    from raw bytes: the rightmost [AddressLength] bytes are kept and a
    shorter input is left-padded with zero bytes. *)
Definition BytesToAddress (b : list byte) : Address :=
  let b' := drop (length b - AddressLength)%nat b in
  replicate (AddressLength - length b')%nat "000"%byte ++ b'.

(** [addr.Bytes()] is [addr[:]]. *)
Definition Address_Bytes (a : Address) : list byte := a.

#[global] Instance byte_eq_dec : EqDecision byte := Byte.byte_eq_dec.
#[global] Instance byte_countable : Countable byte :=
  inj_countable Byte.to_N Byte.of_N Byte.of_to_N.

(** ** [state_type.go] *)

Record StateType : Type := { Prefix : byte }.

Definition AccountState : StateType := {| Prefix := "a"%byte |}.
Definition PodState : StateType := {| Prefix := "p"%byte |}.

#[global] Instance StateType_eq_dec : EqDecision StateType.
Proof. solve_decision. Defined.

Definition stateTypeFromPrefix (prefix : byte) : outcome StateType :=
  if decide (prefix = "a"%byte) then Done AccountState
  else if decide (prefix = "p"%byte) then Done PodState
  else Panicked "unknown state type".

Definition PreKey (st : StateType) (key : list byte) : list byte :=
  [Prefix st] ++ key.

Definition Value (st : StateType) (value : list byte) : list byte :=
  [Prefix st] ++ value.

Definition accountKey (addr : Address) : list byte :=
  PreKey AccountState (Address_Bytes addr).

Definition keyToAddress (key : list byte) : outcome Address :=
  k ← slice_from1 key; mret (BytesToAddress k).

Definition podKey (block : option Z) : outcome (list byte) :=
  b ← bigInt_Bytes block; mret (PreKey PodState b).

Definition keyToBlock (key : list byte) : outcome Z :=
  k ← slice_from1 key; mret (big_SetBytes k).

(** ** [state_object.go] *)

(** The hash function is a collaborator of the state layer. *)
Class Crypto : Type := { Keccak256Hash : list byte → Hash }.

Section KeyHash.
Context `{Crypto}.

Definition accountKeyHash (addr : Address) : Hash :=
  Keccak256Hash (accountKey addr).

Definition podKeyHash (block : option Z) : outcome Hash :=
  k ← podKey block; mret (Keccak256Hash k).
End KeyHash.

(** ** [journal.go] *)

(** Modelled from the spec: the body of [common.BytesToHash] (package
    [common] holds it), the counterpart of [BytesToAddress] for the
    fixed-length hash. *)
Definition BytesToHash (b : list byte) : Hash :=
  let b' := drop (length b - HashLength)%nat b in
  replicate (HashLength - length b')%nat "000"%byte ++ b'.

Section Journal.
Context `{Crypto}.

(** The types the journal refers to but does not declare: a non-nil state
    object reference, a log record, the access list, and the remainder of
    the state database (the store behind the object references, the trie). *)
Context {stateObject Log AccessList Backing : Type}.

(** The fields of [StateDB] that [journal.go] reads and writes.  The maps
    are the initialised maps of a constructed database. *)
Record StateDB : Type := mkStateDB {
  stateObjects : gmap Hash stateObject;
  stateObjectsDirty : gset Hash;
  snap : bool;                       (* [s.snap != nil] *)
  snapDestructs : gset Hash;
  refund : Z;                        (* uint64 *)
  logs : gmap Hash (list Log);
  logSize : Z;                       (* uint *)
  preimages : gmap Hash (list byte);
  accessList : AccessList;
  backing : Backing;
}.

(** Methods of [StateDB], of the account object and of the access list that
    the journal entries call; their bodies are outside [journal.go].  A nil
    interface or nil pointer is [None].  They act on the database only: the
    setters are the lower-case ones, which do not write to the journal. *)
Class StateDBMethods : Type := {
  hashKey : StateDB → list byte → Hash;
  setStateObject : option stateObject → StateDB → outcome StateDB;
  getStateObject : list byte → StateDB → outcome (option stateObject * StateDB);
  object_Type : stateObject → StateType;
  object_KeyHash : stateObject → StateDB → Hash;
  set_suicided : option stateObject → bool → StateDB → outcome StateDB;
  setBalance : option stateObject → option Z → StateDB → outcome StateDB;
  setNonce : option stateObject → Z → StateDB → outcome StateDB;
  setCode : option stateObject → Hash → list byte → StateDB → outcome StateDB;
  setState : option stateObject → Hash → Hash → StateDB → outcome StateDB;
  DeleteAddress : Address → AccessList → outcome AccessList;
  DeleteSlot : Address → Hash → AccessList → outcome AccessList;
}.
Context `{StateDBMethods}.

(** [getAccountObject] of [state_object.go]: the result is a possibly nil
    [*accountObject]. *)
Definition getAccountObject (so : option stateObject) : outcome (option stateObject) :=
  match so with
  | None => Panicked nil_dereference
  | Some o =>
      if decide (object_Type o ≠ AccountState) then Done None
      else Done (Some o)
  end.

Inductive journalEntry : Type :=
  | createObjectChange (key : list byte)
  | resetObjectChange (prev : option stateObject) (prevdestruct : bool)
  | suicideChange (account : option Address) (prev : bool) (prevbalance : option Z)
  | balanceChange (account : option Address) (prev : option Z)
  | nonceChange (account : option Address) (prev : Z)
  | storageChange (account : option Address) (key prevalue : Hash)
  | codeChange (account : option Address) (prevcode prevhash : list byte)
  | refundChange (prev : Z)
  | addLogChange (txhash : Hash)
  | addPreimageChange (hash : Hash)
  | touchChange (account : option Address)
  | accessListAddAccountChange (address : option Address)
  | accessListAddSlotChange (address : option Address) (slot : option Hash).

Definition set_stateObjects (f : gmap Hash stateObject → gmap Hash stateObject)
    (s : StateDB) : StateDB :=
  mkStateDB (f (stateObjects s)) (stateObjectsDirty s) (snap s) (snapDestructs s)
    (refund s) (logs s) (logSize s) (preimages s) (accessList s) (backing s).
Definition set_stateObjectsDirty (f : gset Hash → gset Hash) (s : StateDB) : StateDB :=
  mkStateDB (stateObjects s) (f (stateObjectsDirty s)) (snap s) (snapDestructs s)
    (refund s) (logs s) (logSize s) (preimages s) (accessList s) (backing s).
Definition set_snapDestructs (f : gset Hash → gset Hash) (s : StateDB) : StateDB :=
  mkStateDB (stateObjects s) (stateObjectsDirty s) (snap s) (f (snapDestructs s))
    (refund s) (logs s) (logSize s) (preimages s) (accessList s) (backing s).
Definition set_refund (v : Z) (s : StateDB) : StateDB :=
  mkStateDB (stateObjects s) (stateObjectsDirty s) (snap s) (snapDestructs s)
    v (logs s) (logSize s) (preimages s) (accessList s) (backing s).
Definition set_logs (f : gmap Hash (list Log) → gmap Hash (list Log))
    (s : StateDB) : StateDB :=
  mkStateDB (stateObjects s) (stateObjectsDirty s) (snap s) (snapDestructs s)
    (refund s) (f (logs s)) (logSize s) (preimages s) (accessList s) (backing s).
Definition set_logSize (v : Z) (s : StateDB) : StateDB :=
  mkStateDB (stateObjects s) (stateObjectsDirty s) (snap s) (snapDestructs s)
    (refund s) (logs s) v (preimages s) (accessList s) (backing s).
Definition set_preimages (f : gmap Hash (list byte) → gmap Hash (list byte))
    (s : StateDB) : StateDB :=
  mkStateDB (stateObjects s) (stateObjectsDirty s) (snap s) (snapDestructs s)
    (refund s) (logs s) (logSize s) (f (preimages s)) (accessList s) (backing s).
Definition set_accessList (v : AccessList) (s : StateDB) : StateDB :=
  mkStateDB (stateObjects s) (stateObjectsDirty s) (snap s) (snapDestructs s)
    (refund s) (logs s) (logSize s) (preimages s) v (backing s).

(** [entry.revert(s)] *)
Definition entry_revert (ch : journalEntry) (s : StateDB) : outcome StateDB :=
  match ch with
  | createObjectChange key =>
      let keyHash := hashKey s key in
      Done (set_stateObjectsDirty (λ m, m ∖ {[keyHash]})
             (set_stateObjects (delete keyHash) s))
  | resetObjectChange prev prevdestruct =>
      s ← setStateObject prev s;
      if negb prevdestruct && snap s then
        o ← deref prev;
        Done (set_snapDestructs (λ m, m ∖ {[object_KeyHash o s]}) s)
      else Done s
  | suicideChange account prev prevbalance =>
      a ← deref account;
      '(obj, s) ← getStateObject (accountKey a) s;
      match obj with
      | Some _ =>
          ao ← getAccountObject obj;
          s ← set_suicided ao prev s;
          setBalance ao prevbalance s
      | None => Done s
      end
  | touchChange _ => Done s
  | balanceChange account prev =>
      a ← deref account;
      '(obj, s) ← getStateObject (accountKey a) s;
      ao ← getAccountObject obj;
      setBalance ao prev s
  | nonceChange account prev =>
      a ← deref account;
      '(obj, s) ← getStateObject (accountKey a) s;
      ao ← getAccountObject obj;
      setNonce ao prev s
  | codeChange account prevcode prevhash =>
      a ← deref account;
      '(obj, s) ← getStateObject (accountKey a) s;
      ao ← getAccountObject obj;
      setCode ao (BytesToHash prevhash) prevcode s
  | storageChange account key prevalue =>
      a ← deref account;
      '(obj, s) ← getStateObject (accountKey a) s;
      ao ← getAccountObject obj;
      setState ao key prevalue s
  | refundChange prev => Done (set_refund prev s)
  | addLogChange txhash =>
      let logs_ := default [] (logs s !! txhash) in
      s ← (if decide (length logs_ = 1%nat)
           then Done (set_logs (delete txhash) s)
           else match logs_ with
                | [] => Panicked slice_out_of_range
                | _ => Done (set_logs (insert txhash (removelast logs_)) s)
                end);
      Done (set_logSize (wrap_uint64 (logSize s - 1)) s)
  | addPreimageChange hash => Done (set_preimages (delete hash) s)
  | accessListAddAccountChange address =>
      a ← deref address;
      al ← DeleteAddress a (accessList s);
      Done (set_accessList al s)
  | accessListAddSlotChange address slot =>
      a ← deref address;
      sl ← deref slot;
      al ← DeleteSlot a sl (accessList s);
      Done (set_accessList al s)
  end.

(** [entry.dirtied()]: [None] is the nil hash pointer. *)
Definition dirtied (ch : journalEntry) : outcome (option Hash) :=
  match ch with
  | createObjectChange key =>
      prefix ← index0 key;
      stateType ← stateTypeFromPrefix prefix;
      if decide (stateType = AccountState) then
        k ← slice_from1 key;
        let addr := BytesToAddress k in
        Done (Some (accountKeyHash addr))
      else if decide (stateType = PodState) then
        k ← slice_from1 key;
        block ← keyToBlock k;
        keyHash ← podKeyHash (Some block);
        Done (Some keyHash)
      else Done None
  | suicideChange account _ _
  | touchChange account
  | balanceChange account _
  | nonceChange account _
  | codeChange account _ _
  | storageChange account _ _ =>
      a ← deref account; Done (Some (accountKeyHash a))
  | resetObjectChange _ _
  | refundChange _
  | addLogChange _
  | addPreimageChange _
  | accessListAddAccountChange _
  | accessListAddSlotChange _ _ => Done None
  end.

Record journal : Type := mkJournal {
  entries : list journalEntry;
  dirties : gmap Hash Z;             (* map[common.Hash]int *)
}.

Definition newJournal : journal := mkJournal [] ∅.

(** [j.dirties[h]++] *)
Definition dirties_incr (h : Hash) (d : gmap Hash Z) : gmap Hash Z :=
  <[h := wrap_int (default 0 (d !! h) + 1)]> d.

(** [if j.dirties[h]--; j.dirties[h] == 0 { delete(j.dirties, h) }] *)
Definition dirties_decr (h : Hash) (d : gmap Hash Z) : gmap Hash Z :=
  let d' := <[h := wrap_int (default 0 (d !! h) - 1)]> d in
  if decide (default 0 (d' !! h) = 0) then delete h d' else d'.

Definition append (j : journal) (entry : journalEntry) : outcome journal :=
  let entries' := entries j ++ [entry] in
  keyHash ← dirtied entry;
  match keyHash with
  | Some h => Done (mkJournal entries' (dirties_incr h (dirties j)))
  | None => Done (mkJournal entries' (dirties j))
  end.

(** [j.entries[i]] for an [int] index. *)
Definition entry_at (es : list journalEntry) (i : Z) : outcome journalEntry :=
  if decide (i < 0) then Panicked index_out_of_range
  else match es !! Z.to_nat i with
       | Some e => Done e
       | None => Panicked index_out_of_range
       end.

(** The loop of [revert]: [for ; i >= snapshot; i--].  An iteration either
    stops, panics or moves [i] one down, and [i] starts at [len - 1], so
    [len + 1] steps of fuel reach the end of every run. *)
Fixpoint revert_loop (fuel : nat) (es : list journalEntry) (snapshot i : Z)
    (d : gmap Hash Z) (statedb : StateDB) : outcome (gmap Hash Z * StateDB) :=
  match fuel with
  | O => Done (d, statedb)
  | S fuel' =>
      if decide (i >= snapshot) then
        e ← entry_at es i;
        statedb ← entry_revert e statedb;
        keyHash ← dirtied e;
        let d := match keyHash with
                 | Some h => dirties_decr h d
                 | None => d
                 end in
        revert_loop fuel' es snapshot (i - 1) d statedb
      else Done (d, statedb)
  end.

(** [j.entries[:snapshot]].  Beyond the length the expression depends on
    the capacity of the backing array, which is not part of the model; such
    a checkpoint is outside the contract of [revert] and is reported as the
    slice panic. *)
Definition truncate (es : list journalEntry) (snapshot : Z) : outcome (list journalEntry) :=
  if decide (snapshot < 0 ∨ Z.of_nat (length es) < snapshot)
  then Panicked slice_out_of_range
  else Done (take (Z.to_nat snapshot) es).

Definition revert (j : journal) (statedb : StateDB) (snapshot : Z)
    : outcome (journal * StateDB) :=
  let len := Z.of_nat (length (entries j)) in
  '(d, statedb) ← revert_loop (S (length (entries j))) (entries j) snapshot (len - 1)
                    (dirties j) statedb;
  es ← truncate (entries j) snapshot;
  Done (mkJournal es d, statedb).

Definition dirty (j : journal) (keyHash : Hash) : journal :=
  mkJournal (entries j) (dirties_incr keyHash (dirties j)).

(** [j.length()] *)
Definition journal_length (j : journal) : Z := Z.of_nat (length (entries j)).
End Journal.

(** ** [core/types/state_pod.go] *)

Record StatePod : Type := mkStatePod {
  GasLimit : Z;                        (* uint64 *)
  CurrentGasLimit : Z;                 (* uint64 *)
  Passengers : list Address;
}.

(** ** The pod state object *)

Section PodObject.
Context `{Crypto}.
(** References to a state database ([*StateDB]) and trie change sets. *)
Context {DB NodeSet : Type}.

Record podObject : Type := mkPodObject {
  block : option Z;                  (* *big.Int *)
  podHash : Hash;
  data : StatePod;
  db : DB;
  dbErr : option string;
  executed : bool;
  deleted : bool;
}.

Definition newPodObject (db : DB) (block : option Z) (data : StatePod)
    : outcome podObject :=
  let data :=
    if decide (GasLimit data = 0)
    then mkStatePod 1000000 (CurrentGasLimit data) (Passengers data)
    else data in
  podHash ← podKeyHash block;
  Done (mkPodObject block podHash data db None false false).

Definition podObject_Type (o : podObject) : StateType := PodState.

Definition podObject_Key (o : podObject) : outcome (list byte) := podKey (block o).

Definition podObject_KeyHash (o : podObject) : Hash := podHash o.

(** The result is the nil [stateObject]. *)
Definition podObject_DeepCopy (o : podObject) (db : DB) : option podObject := None.

Definition podObject_Empty (o : podObject) : bool :=
  bool_decide (block o = None) && bool_decide (GasLimit (data o) = 0).

Definition podObject_Suicided (o : podObject) : bool := executed o.

Definition podObject_Deleted (o : podObject) : bool := deleted o.

Definition podObject_MarkDeleted (o : podObject) : podObject :=
  mkPodObject (block o) (podHash o) (data o) (db o) (dbErr o) (executed o) true.

Definition podObject_SnapRLP (o : podObject) : list byte := [].

Definition podObject_Commit (o : podObject) (s : DB) : option NodeSet * option string :=
  (None, None).
End PodObject.

(** The clone that [DeepCopy] is specified to return: bound to the target
    database, and carrying the block, key hash and data of the source. *)
Definition is_clone_of {DB} (o : @podObject DB) (target : DB) (c : @podObject DB) : Prop :=
  db c = target ∧ block c = block o ∧ podHash c = podHash o ∧
  GasLimit (data c) = GasLimit (data o) ∧
  CurrentGasLimit (data c) = CurrentGasLimit (data o) ∧
  Passengers (data c) = Passengers (data o).

(** ** [core/state/snapshot/pod.go] *)

(** A Go [error] value and a [(T, error)] result. *)
Inductive result (A : Type) : Type :=
  | Ok (a : A)
  | Err (e : string).
Arguments Ok {A} a.
Arguments Err {A} e.

(** How a [for ... range] statement declares its variables: one variable for
    the whole loop (the language before Go 1.22) or a new one for every
    iteration (from Go 1.22 on). *)
Inductive loopvar : Type := PerLoop | PerIteration.

Class GoLanguage : Type := { range_variable : loopvar }.

Module snapshot.

Record Pod : Type := mkPod {
  GasLimit : Z;                      (* uint64 *)
  CurrentGasLimit : Z;               (* uint64 *)
  Passengers : list (list byte);     (* [][]byte, as read when the pod is used *)
}.

(** The encoder of the record, a collaborator: [rlp.EncodeToBytes] and
    [rlp.DecodeBytes] at type [Pod]. *)
Class PodCodec : Type := {
  EncodeToBytes : Pod → result (list byte);
  DecodeBytes : list byte → result Pod;
}.

Section SlimPod.
Context `{GoLanguage} `{PodCodec}.

(** The arrays that the slices [p[:]] point into. *)
Definition loc : Type := nat.
Definition arrays : Type := gmap loc Address.

(** [for _, p := range passengers { slim.Passengers = append(slim.Passengers, p[:]) }]
    [p] is the array variable of the current iteration, held at [lp];
    [p[:]] is a slice over that variable, not a copy of it. *)
Fixpoint SlimPod_range (passengers : list Address) (lp : loc)
    (mem : arrays) (slices : list loc) : arrays * list loc :=
  match passengers with
  | [] => (mem, slices)
  | a :: rest =>
      let mem := <[lp := a]> mem in
      let slices := slices ++ [lp] in
      let lp' := match range_variable with
                 | PerLoop => lp
                 | PerIteration => S lp
                 end in
      SlimPod_range rest lp' mem slices
  end.

Definition read_slice (mem : arrays) (l : loc) : list byte :=
  default [] (mem !! l).

Definition SlimPod (gasLimit currentGasLimit : Z) (passengers : list Address) : Pod :=
  let '(mem, slices) := SlimPod_range passengers O ∅ [] in
  mkPod gasLimit currentGasLimit (read_slice mem <$> slices).

Definition SlimPodRLP (gasLimit currentGasLimit : Z) (passengers : list Address)
    : outcome (list byte) :=
  match EncodeToBytes (SlimPod gasLimit currentGasLimit passengers) with
  | Err e => Panicked e
  | Ok data => Done data
  end.

Definition FullPod (data : list byte) : result Pod :=
  match DecodeBytes data with
  | Err e => Err e
  | Ok pod => Ok pod
  end.

Definition FullPodRLP (data : list byte) : result (list byte) :=
  match FullPod data with
  | Err e => Err e
  | Ok pod => EncodeToBytes pod
  end.

Definition FullStatePod (data : list byte) : result StatePod :=
  match FullPod data with
  | Err e => Err e
  | Ok pod =>
      let passengers :=
        fold_left (λ acc p, acc ++ [BytesToAddress p]) (Passengers pod) [] in
      Ok (mkStatePod (GasLimit pod) (CurrentGasLimit pod) passengers)
  end.
End SlimPod.

End snapshot.

(** ** A reference codec for the pod record

    Modelled from the spec: the canonical encoder (package [rlp]) for the
    pod schema, a list of the unsigned [GasLimit], the unsigned
    [CurrentGasLimit] and the list of passenger byte strings, in that order.
    It follows the RLP wire format and serves to run the functions above on
    sample inputs. *)

Definition rlp_header (base : N) (len : nat) : list byte :=
  if (len <=? 55)%nat then [byte_of_N (base + N.of_nat len)]
  else
    let lb := big_Bytes (Z.of_nat len) in
    byte_of_N (base + 55 + N.of_nat (length lb)) :: lb.

Definition rlp_string (b : list byte) : list byte :=
  match b with
  | [x] => if (Byte.to_N x <? 128)%N then [x] else rlp_header 128 1 ++ b
  | _ => rlp_header 128 (length b) ++ b
  end.

Definition rlp_uint (n : Z) : list byte := rlp_string (big_Bytes n).

Definition rlp_list (payload : list byte) : list byte :=
  rlp_header 192 (length payload) ++ payload.

Definition rlp_encode_pod (pod : snapshot.Pod) : result (list byte) :=
  Ok (rlp_list (rlp_uint (snapshot.GasLimit pod) ++
                rlp_uint (snapshot.CurrentGasLimit pod) ++
                rlp_list (concat (rlp_string <$> snapshot.Passengers pod)))).

Definition rlp_take (is_list : bool) (len : nat) (rest : list byte)
    : result (bool * list byte * list byte) :=
  if (length rest <? len)%nat then Err "rlp: value size exceeds available input length"
  else Ok (is_list, take len rest, drop len rest).

Definition rlp_take_long (is_list : bool) (lenlen : nat) (rest : list byte)
    : result (bool * list byte * list byte) :=
  if (length rest <? lenlen)%nat then Err "unexpected EOF"
  else rlp_take is_list (N.to_nat (bytes_value (take lenlen rest))) (drop lenlen rest).

(** One item off the front: its kind (list or string), its content and the
    input after it. *)
Definition rlp_split (data : list byte) : result (bool * list byte * list byte) :=
  match data with
  | [] => Err "EOF"
  | x :: rest =>
      let n := N.to_nat (Byte.to_N x) in
      if (n <? 128)%nat then Ok (false, [x], rest)
      else if (n <=? 183)%nat then rlp_take false (n - 128) rest
      else if (n <=? 191)%nat then rlp_take_long false (n - 183) rest
      else if (n <=? 247)%nat then rlp_take true (n - 192) rest
      else rlp_take_long true (n - 247) rest
  end.

Definition rlp_decode_uint64 (data : list byte) : result (Z * list byte) :=
  match rlp_split data with
  | Err e => Err e
  | Ok (true, _, _) => Err "rlp: expected input string or byte for uint64"
  | Ok (false, content, rest) =>
      if (8 <? length content)%nat then Err "rlp: input string too long for uint64"
      else match content with
           | "000"%byte :: _ => Err "rlp: non-canonical integer (leading zero bytes) for uint64"
           | _ => Ok (big_SetBytes content, rest)
           end
  end.

Fixpoint rlp_decode_strings (fuel : nat) (data : list byte) : result (list (list byte)) :=
  match data, fuel with
  | [], _ => Ok []
  | _, O => Err "rlp: input too long"
  | _, S fuel' =>
      match rlp_split data with
      | Err e => Err e
      | Ok (true, _, _) => Err "rlp: expected input string or byte for []uint8"
      | Ok (false, content, rest) =>
          match rlp_decode_strings fuel' rest with
          | Err e => Err e
          | Ok l => Ok (content :: l)
          end
      end
  end.

Definition rlp_decode_pod (data : list byte) : result snapshot.Pod :=
  match rlp_split data with
  | Err e => Err e
  | Ok (false, _, _) => Err "rlp: expected input list for snapshot.Pod"
  | Ok (true, content, rest) =>
      match rest with
      | _ :: _ => Err "rlp: input contains more than one value"
      | [] =>
          match rlp_decode_uint64 content with
          | Err e => Err e
          | Ok (gasLimit, content) =>
              match rlp_decode_uint64 content with
              | Err e => Err e
              | Ok (currentGasLimit, content) =>
                  match rlp_split content with
                  | Err e => Err e
                  | Ok (false, _, _) => Err "rlp: expected input list for [][]uint8"
                  | Ok (true, items, rest) =>
                      match rest with
                      | _ :: _ => Err "rlp: input list has too many elements for snapshot.Pod"
                      | [] =>
                          match rlp_decode_strings (length items) items with
                          | Err e => Err e
                          | Ok passengers =>
                              Ok (snapshot.mkPod gasLimit currentGasLimit passengers)
                          end
                      end
                  end
              end
          end
      end
  end.

Definition rlp_pod_codec : snapshot.PodCodec :=
  {| snapshot.EncodeToBytes := rlp_encode_pod; snapshot.DecodeBytes := rlp_decode_pod |}.

Definition go_before_1_22 : GoLanguage := {| range_variable := PerLoop |}.
Definition go_from_1_22 : GoLanguage := {| range_variable := PerIteration |}.

(** Sample addresses. *)
Definition address_of_byte (x : byte) : Address :=
  replicate 19 "000"%byte ++ [x].
Definition addr1 : Address := address_of_byte "001"%byte.
Definition addr2 : Address := address_of_byte "002"%byte.
Definition addr3 : Address := address_of_byte "003"%byte.

(** ** The state dump ([DumpToCollector]) *)

(** Modelled from the spec: [types.StateAccount] (declared outside the files
    at hand), the stored form of an account: nonce, balance, storage root and
    code hash. *)
Record StateAccount : Type := mkStateAccount {
  Nonce : Z;                           (* uint64 *)
  Balance : option Z;                  (* *big.Int *)
  Root : Hash;
  CodeHash : list byte;
}.

(** [x.String()] of a [*big.Int]: decimal text. *)
Definition bigInt_String (x : option Z) : string :=
  match x with
  | None => "<nil>"
  | Some v => NilZero.string_of_int (Z.to_int v)
  end.

Definition hex_digit (n : N) : Ascii.ascii :=
  default "0"%char (String.get (N.to_nat n) "0123456789abcdef").

(** Modelled from the spec: [common.Bytes2Hex], the lower-case hexadecimal
    text of a byte string. *)
Fixpoint Bytes2Hex (b : list byte) : string :=
  match b with
  | [] => EmptyString
  | x :: rest =>
      String (hex_digit (Byte.to_N x / 16)%N)
        (String (hex_digit (Byte.to_N x mod 16)%N) (Bytes2Hex rest))
  end.

Record DumpConfig : Type := mkDumpConfig {
  SkipCode : bool;
  SkipStorage : bool;
  OnlyWithAddresses : bool;
  Start : list byte;
  Max : Z;                             (* uint64 *)
}.

(** [new(DumpConfig)] *)
Definition zero_DumpConfig : DumpConfig := mkDumpConfig false false false [] 0.

Module DumpAccount.
Record t : Type := mk {
  Balance : string;
  Nonce : Z;
  Root : list byte;
  CodeHash : list byte;
  Code : list byte;
  Storage : option (gmap Hash string);
  Address : option Address;
  SecureKey : list byte;
}.
End DumpAccount.

Module DumpPod.
Record t : Type := mk {
  GasLimit : Z;
  CurrentGasLimit : Z;
  Passengers : list Address;
  Block : option Z;
  SecureKey : list byte;
}.
End DumpPod.

(** The interface [DumpCollector]; [C] is the state of the collector. *)
Class DumpCollector (C : Type) : Type := {
  OnRoot : Hash → C → C;
  OnAccount : Address → DumpAccount.t → C → C;
  OnPod : Z → DumpPod.t → C → C;
}.

(** [iterativeDump]: one value written to the encoder per call; the state of
    the collector is the sequence of values written so far. *)
Inductive dump_line : Type :=
  | RootLine (root : Hash)
  | AccountLine (account : DumpAccount.t)
  | PodLine (pod : DumpPod.t).

Definition iterativeDump_OnAccount (addr : Address) (account : DumpAccount.t)
    (out : list dump_line) : list dump_line :=
  let dumpAccount :=
    DumpAccount.mk (DumpAccount.Balance account) (DumpAccount.Nonce account)
      (DumpAccount.Root account) (DumpAccount.CodeHash account)
      (DumpAccount.Code account) (DumpAccount.Storage account)
      (if decide (addr ≠ replicate AddressLength "000"%byte) then Some addr else None)
      (DumpAccount.SecureKey account) in
  out ++ [AccountLine dumpAccount].

Definition iterativeDump_OnPod (block : Z) (pod : DumpPod.t)
    (out : list dump_line) : list dump_line :=
  let dumpPod :=
    DumpPod.mk (DumpPod.GasLimit pod) (DumpPod.CurrentGasLimit pod)
      (DumpPod.Passengers pod) (Some block) (DumpPod.SecureKey pod) in
  out ++ [PodLine dumpPod].

Definition iterativeDump_OnRoot (root : Hash) (out : list dump_line) : list dump_line :=
  out ++ [RootLine root].

#[global] Instance iterativeDump : DumpCollector (list dump_line) :=
  {| OnRoot := iterativeDump_OnRoot;
     OnAccount := iterativeDump_OnAccount;
     OnPod := iterativeDump_OnPod |}.

(** What the dump needs from its collaborators: the state trie of the
    database [S] (root hash, leaves in key order from a start key, key
    preimages), the decoder at the two stored types, and the code and storage
    leaves of an account object. *)
Class DumpEnv (S : Type) : Type := {
  trie_Hash : S → Hash;
  trie_leaves : S → list byte → list (list byte * list byte);
  trie_GetKey : S → list byte → option (list byte);
  DecodeAccount : list byte → result StateAccount;
  DecodePod : list byte → result StatePod;
  account_Code : S → Address → StateAccount → outcome (list byte);
  account_storage_leaves : S → Address → StateAccount → outcome (list (list byte * list byte));
  rlp_Split_content : list byte → result (list byte);
}.

Section Dump.
Context {S C : Type} `{DumpEnv S} `{DumpCollector C}.

(** The local variables of [DumpToCollector] that outlive an iteration. *)
Record dump_state : Type := mkDumpState {
  collector : C;
  missingPreimages : Z;              (* int *)
  accounts : Z;                      (* uint64 *)
  pods : Z;                          (* uint64 *)
  nextKey : option (list byte);
}.

(** How the body of the loop leaves the [switch]: by [continue], or by
    falling through to the statements after it. *)
Inductive item_exit : Type :=
  | Continue (st : dump_state)
  | AfterSwitch (st : dump_state).

Definition count_missing (st : dump_state) : dump_state :=
  mkDumpState (collector st) (wrap_int (missingPreimages st + 1))
    (accounts st) (pods st) (nextKey st).

(** The loop over the storage trie of an account. *)
Fixpoint dump_storage (s : S) (leaves : list (list byte * list byte))
    (storage : gmap Hash string) : gmap Hash string :=
  match leaves with
  | [] => storage
  | (key, value) :: rest =>
      match rlp_Split_content value with
      | Err _ => dump_storage s rest storage
      | Ok content =>
          let slot := BytesToHash (default [] (trie_GetKey s key)) in
          dump_storage s rest (<[slot := Bytes2Hex content]> storage)
      end
  end.

Definition dump_account (s : S) (conf : DumpConfig) (key value : list byte)
    (st : dump_state) : outcome item_exit :=
  data ← match DecodeAccount value with
         | Err e => Panicked e
         | Ok data => Done data
         end;
  let addrBytes := trie_GetKey s key in
  let st := if addrBytes is None then count_missing st else st in
  if bool_decide (addrBytes = None) && OnlyWithAddresses conf then Done (Continue st)
  else
    k ← slice_from1 (default [] addrBytes);
    let addr := BytesToAddress k in
    code ← (if negb (SkipCode conf) then account_Code s addr data else Done []);
    storage ← (if negb (SkipStorage conf) then
                 leaves ← account_storage_leaves s addr data;
                 Done (Some (dump_storage s leaves ∅))
               else Done None);
    let account :=
      DumpAccount.mk (bigInt_String (Balance data)) (Nonce data) (Root data)
        (CodeHash data) code storage None key in
    Done (AfterSwitch
            (mkDumpState (OnAccount addr account (collector st)) (missingPreimages st)
               (wrap_uint64 (accounts st + 1)) (pods st) (nextKey st))).

Definition dump_pod (s : S) (conf : DumpConfig) (key value : list byte)
    (st : dump_state) : outcome item_exit :=
  data ← match DecodePod value with
         | Err e => Panicked e
         | Ok data => Done data
         end;
  let pod :=
    DumpPod.mk (GasLimit data) (CurrentGasLimit data) (Passengers data) None key in
  let blockBytes := trie_GetKey s key in
  let st := if blockBytes is None then count_missing st else st in
  k ← slice_from1 (default [] blockBytes);
  let block := big_SetBytes k in
  Done (AfterSwitch
          (mkDumpState (OnPod block pod (collector st)) (missingPreimages st)
             (accounts st) (wrap_uint64 (pods st + 1)) (nextKey st))).

(** [for it.Next() { ... }] over the leaves that the iterator yields. *)
Fixpoint dump_loop (s : S) (conf : DumpConfig)
    (leaves : list (list byte * list byte)) (st : dump_state) : outcome dump_state :=
  match leaves with
  | [] => Done st
  | (key, value) :: rest =>
      prefix ← index0 value;
      stateType ← stateTypeFromPrefix prefix;
      value ← slice_from1 value;
      exit ← (if decide (stateType = AccountState) then dump_account s conf key value st
              else if decide (stateType = PodState) then dump_pod s conf key value st
              else Panicked "unknown state type in dump trie");
      match exit with
      | Continue st => dump_loop s conf rest st
      | AfterSwitch st =>
          if decide (Max conf > 0 ∧ accounts st >= Max conf) then
            Done (mkDumpState (collector st) (missingPreimages st) (accounts st)
                    (pods st) (match rest with
                               | (key', _) :: _ => Some key'
                               | [] => nextKey st
                               end))
          else dump_loop s conf rest st
      end
  end.

(** The result carries, next to the returned [nextKey], the collector and
    the counters that the function logs. *)
Definition DumpToCollector (s : S) (c : C) (conf : option DumpConfig)
    : outcome dump_state :=
  let conf := default zero_DumpConfig conf in
  let c := OnRoot (trie_Hash s) c in
  dump_loop s conf (trie_leaves s (Start conf)) (mkDumpState c 0 0 0 None).
End Dump.

(** A leaf that holds a decodable pod whose key has a non-empty preimage. *)
Definition pod_leaf {S : Type} `{DumpEnv S} (s : S) (kv : list byte * list byte) : Prop :=
  ∃ v data pre, kv.2 = "p"%byte :: v ∧ DecodePod v = Ok data ∧
                trie_GetKey s kv.1 = Some pre ∧ pre ≠ [].

(** ** Journal operations as data, and the specification of the dirty counts *)

Section JournalSpec.
Context `{Crypto}.
Context {stateObject Log AccessList Backing : Type}.
Context `{!@StateDBMethods stateObject Log AccessList Backing}.

(** Specification of the loop of [revert], following the spec's words: for
    every entry of [l], taken in the order given, invoke its [revert], then
    decrement the dirty count of its [dirtied()] hash if present. *)
Fixpoint undo_entries (l : list (@journalEntry stateObject))
    (d : gmap Hash Z) (statedb : StateDB) : outcome (gmap Hash Z * StateDB) :=
  match l with
  | [] => Done (d, statedb)
  | e :: l' =>
      statedb ← entry_revert e statedb;
      keyHash ← dirtied e;
      undo_entries l' (match keyHash with
                       | Some h => dirties_decr h d
                       | None => d
                       end) statedb
  end.

(** The calls a client makes on a journal. *)
Inductive journal_op : Type :=
  | OpAppend (entry : @journalEntry stateObject)
  | OpRevert (snapshot : Z)
  | OpDirty (keyHash : Hash).

Definition journal_state : Type :=
  @journal stateObject * @StateDB stateObject Log AccessList Backing.

Definition journal_step (st : journal_state) (op : journal_op)
    : outcome journal_state :=
  let '(j, statedb) := st in
  match op with
  | OpAppend entry => j ← append j entry; Done (j, statedb)
  | OpRevert snapshot => revert j statedb snapshot
  | OpDirty keyHash => Done (dirty j keyHash, statedb)
  end.

Fixpoint journal_run (ops : list journal_op) (st : journal_state)
    : outcome journal_state :=
  match ops with
  | [] => Done st
  | op :: ops' => st ← journal_step st op; journal_run ops' st
  end.

(** The non-nil [dirtied()] results over a sequence of entries. *)
Definition dirtied_hashes (es : list (@journalEntry stateObject)) : list Hash :=
  es ≫= λ e, match dirtied e with
             | Done (Some h) => [h]
             | _ => []
             end.

(** The hashes passed to [dirty] in a sequence of operations. *)
Definition explicit_dirty (ops : list journal_op) : list Hash :=
  ops ≫= λ op, match op with
               | OpDirty h => [h]
               | _ => []
               end.
End JournalSpec.

(** The multiset of a list of hashes, as a map from each hash that occurs to
    the number of its occurrences. *)
Definition occurrences (h : Hash) (l : list Hash) : Z :=
  Z.of_nat (length (filter (λ x, x = h) l)).

Fixpoint count_map (l : list Hash) : gmap Hash Z :=
  match l with
  | [] => ∅
  | h :: l' => let m := count_map l' in <[h := default 0 (m !! h) + 1]> m
  end.

Definition dirties_multiset `{Crypto} {stateObject}
    (es : list (@journalEntry stateObject)) : gmap Hash Z :=
  count_map (dirtied_hashes es).

(** ** Sample collaborators

    Stand-ins for the collaborators, used to run the functions on sample
    inputs: a hash function that pads or crops its input to the hash length,
    a state database whose objects are accounts named by their address with
    a balance each, and a trie given by its leaves and key preimages. *)

Definition sample_crypto : Crypto := {| Keccak256Hash := BytesToHash |}.

Definition SampleStateDB : Type := @StateDB Address unit unit (gmap Address Z).

Definition sample_setBalance (ao : option Address) (v : option Z) (s : SampleStateDB)
    : outcome SampleStateDB :=
  match ao, v with
  | Some a, Some v =>
      Done (mkStateDB (stateObjects s) (stateObjectsDirty s) (snap s) (snapDestructs s)
              (refund s) (logs s) (logSize s) (preimages s) (accessList s)
              (<[a := v]> (backing s)))
  | _, _ => Panicked nil_dereference
  end.

Definition sample_touch (ao : option Address) (s : SampleStateDB) : outcome SampleStateDB :=
  match ao with
  | Some _ => Done s
  | None => Panicked nil_dereference
  end.

Definition sample_methods : @StateDBMethods Address unit unit (gmap Address Z) :=
  {| hashKey := λ _ key, BytesToHash key;
     setStateObject := λ prev s,
       match prev with
       | Some o => Done (set_stateObjects (insert (@accountKeyHash sample_crypto o) o) s)
       | None => Panicked nil_dereference
       end;
     getStateObject := λ key s, Done (stateObjects s !! BytesToHash key, s);
     object_Type := λ _, AccountState;
     object_KeyHash := λ o _, @accountKeyHash sample_crypto o;
     set_suicided := λ ao _ s, sample_touch ao s;
     setBalance := sample_setBalance;
     setNonce := λ ao _ s, sample_touch ao s;
     setCode := λ ao _ _ s, sample_touch ao s;
     setState := λ ao _ _ s, sample_touch ao s;
     DeleteAddress := λ _ al, Done al;
     DeleteSlot := λ _ _ al, Done al |}.

(** A database holding the account [addr1] with balance 50. *)
Definition sample_statedb : SampleStateDB :=
  mkStateDB {[ @accountKeyHash sample_crypto addr1 := addr1 ]} ∅ false ∅ 0 ∅ 0 ∅ tt
    {[ addr1 := 50 ]}.

Definition sample_journal_ops : list (@journal_op Address) :=
  [ OpAppend (balanceChange (Some addr1) (Some 0));
    OpAppend (refundChange 0);
    OpAppend (balanceChange (Some addr1) (Some 100));
    OpAppend (touchChange (Some addr2));
    OpRevert 3;
    OpRevert 1 ].

Record SampleTrie : Type := mkSampleTrie {
  sample_root : Hash;
  sample_leaves : list (list byte * list byte);
  sample_preimages : gmap (list byte) (list byte);
}.

Fixpoint bytes_leb (a b : list byte) : bool :=
  match a, b with
  | [], _ => true
  | _ :: _, [] => false
  | x :: a', y :: b' =>
      if (Byte.to_N x <? Byte.to_N y)%N then true
      else if (Byte.to_N y <? Byte.to_N x)%N then false
      else bytes_leb a' b'
  end.

Definition rlp_decode_string (data : list byte) : result (list byte * list byte) :=
  match rlp_split data with
  | Err e => Err e
  | Ok (true, _, _) => Err "rlp: expected input string or byte"
  | Ok (false, content, rest) => Ok (content, rest)
  end.

(** The account record: a list of nonce, balance, storage root, code hash. *)
Definition rlp_decode_account (data : list byte) : result StateAccount :=
  match rlp_split data with
  | Err e => Err e
  | Ok (false, _, _) => Err "rlp: expected input list for types.StateAccount"
  | Ok (true, content, _) =>
      match rlp_decode_uint64 content with
      | Err e => Err e
      | Ok (nonce, content) =>
          match rlp_decode_string content with
          | Err e => Err e
          | Ok (balance, content) =>
              match rlp_decode_string content with
              | Err e => Err e
              | Ok (root, content) =>
                  match rlp_decode_string content with
                  | Err e => Err e
                  | Ok (codeHash, _) =>
                      Ok (mkStateAccount nonce (Some (big_SetBytes balance)) root codeHash)
                  end
              end
          end
      end
  end.

Definition rlp_decode_statepod (data : list byte) : result StatePod :=
  @snapshot.FullStatePod rlp_pod_codec data.

Definition sample_env : DumpEnv SampleTrie :=
  {| trie_Hash := sample_root;
     trie_leaves := λ t start, filter (λ kv, bytes_leb start kv.1 = true) (sample_leaves t);
     trie_GetKey := λ t key, sample_preimages t !! key;
     DecodeAccount := rlp_decode_account;
     DecodePod := rlp_decode_statepod;
     account_Code := λ _ _ _, Done [];
     account_storage_leaves := λ _ _ _, Done [];
     rlp_Split_content := λ v, match rlp_split v with
                               | Ok (_, content, _) => Ok content
                               | Err e => Err e
                               end |}.

(** Stored values: a pod with gas limit 1000000 and no passengers, and an
    account with nonce 1, balance 100, an all-zero root and code hash. *)
Definition sample_pod_value : list byte :=
  Value PodState (rlp_list (rlp_uint 1000000 ++ rlp_uint 0 ++ rlp_list [])).

Definition sample_account_value : list byte :=
  Value AccountState
    (rlp_list (rlp_uint 1 ++ rlp_uint 100 ++
               rlp_string (replicate 32 "000"%byte) ++ rlp_string (replicate 32 "000"%byte))).

Definition key1 : list byte := replicate 31 "000"%byte ++ ["001"%byte].
Definition key2 : list byte := replicate 31 "000"%byte ++ ["002"%byte].

(** Two pods, for blocks 42 and 43, with their key preimages. *)
Definition sample_trie_two_pods : SampleTrie :=
  mkSampleTrie (replicate 32 "000"%byte)
    [(key1, sample_pod_value); (key2, sample_pod_value)]
    {[ key1 := "p"%byte :: big_Bytes 42; key2 := "p"%byte :: big_Bytes 43 ]}.

(** A pod followed by an account, both without key preimage. *)
Definition sample_trie_pod_no_preimage : SampleTrie :=
  mkSampleTrie (replicate 32 "000"%byte)
    [(key1, sample_pod_value); (key2, sample_account_value)] ∅.

(** An account followed by a pod, both without key preimage. *)
Definition sample_trie_account_no_preimage : SampleTrie :=
  mkSampleTrie (replicate 32 "000"%byte)
    [(key1, sample_account_value); (key2, sample_pod_value)] ∅.

(** A single account without key preimage. *)
Definition sample_trie_one_account : SampleTrie :=
  mkSampleTrie (replicate 32 "000"%byte) [(key1, sample_account_value)] ∅.

Definition sample_config (onlyWithAddresses : bool) (max : Z) : DumpConfig :=
  mkDumpConfig true true onlyWithAddresses [] max.

(** A journal of four entries over [sample_statedb], with the dirty counts
    of its entries, and a hash to pass to [dirty]. *)
Definition sample_entries : list (@journalEntry Address) :=
  [ balanceChange (Some addr1) (Some 0);
    refundChange 0;
    balanceChange (Some addr1) (Some 100);
    touchChange (Some addr2) ].

Definition sample_journal : @journal Address :=
  mkJournal sample_entries (@dirties_multiset sample_crypto _ sample_entries).

Definition sample_hash : Hash := @accountKeyHash sample_crypto addr3.

(** [sample_statedb] once the balance of [addr1] is back at 100, and
    [sample_journal] cut back to its first entry. *)
Definition sample_statedb_after : SampleStateDB :=
  mkStateDB {[ @accountKeyHash sample_crypto addr1 := addr1 ]} ∅ false ∅ 0 ∅ 0 ∅ tt
    {[ addr1 := 100 ]}.

Definition sample_journal_after : @journal Address :=
  mkJournal (take 1 sample_entries) {[ @accountKeyHash sample_crypto addr1 := 1 ]}.


(** A leaf that holds a decodable account whose key has a non-empty preimage
    and whose code and storage leaves, where the configuration asks for them,
    are there to read. *)
Definition account_leaf {S : Type} `{DumpEnv S} (s : S) (conf : DumpConfig)
    (kv : list byte * list byte) : Prop :=
  ∃ v data pre,
    kv.2 = "a"%byte :: v ∧ DecodeAccount v = Ok data ∧
    trie_GetKey s kv.1 = Some pre ∧ pre ≠ [] ∧
    (SkipCode conf = false →
     ∃ code, account_Code s (BytesToAddress (tail pre)) data = Done code) ∧
    (SkipStorage conf = false →
     ∃ leaves, account_storage_leaves s (BytesToAddress (tail pre)) data = Done leaves).

(** A leaf that holds a decodable account whose key has no preimage. *)
Definition account_leaf_without_preimage {S : Type} `{DumpEnv S} (s : S)
    (kv : list byte * list byte) : Prop :=
  ∃ v data, kv.2 = "a"%byte :: v ∧ DecodeAccount v = Ok data ∧ trie_GetKey s kv.1 = None.

Definition key3 : list byte := replicate 31 "000"%byte ++ ["003"%byte].

(** Three accounts with their key preimages, and the same three without. *)
Definition sample_trie_three_accounts : SampleTrie :=
  mkSampleTrie (replicate 32 "000"%byte)
    [(key1, sample_account_value); (key2, sample_account_value);
     (key3, sample_account_value)]
    {[ key1 := "a"%byte :: addr1; key2 := "a"%byte :: addr2; key3 := "a"%byte :: addr3 ]}.

Definition sample_trie_three_accounts_no_preimage : SampleTrie :=
  mkSampleTrie (replicate 32 "000"%byte)
    [(key1, sample_account_value); (key2, sample_account_value);
     (key3, sample_account_value)] ∅.

(** A pod and an account, both with key preimage. *)
Definition sample_trie_pod_account : SampleTrie :=
  mkSampleTrie (replicate 32 "000"%byte)
    [(key1, sample_pod_value); (key2, sample_account_value)]
    {[ key1 := "p"%byte :: big_Bytes 42; key2 := "a"%byte :: addr2 ]}.

(** A trie whose only leaf has an empty value. *)
Definition sample_trie_empty_value : SampleTrie :=
  mkSampleTrie (replicate 32 "000"%byte) [(key1, [])] ∅.

(** A database with two logs for the transaction [sample_hash]. *)
Definition sample_statedb_logs : SampleStateDB :=
  mkStateDB ∅ ∅ false ∅ 0 {[ sample_hash := [(); ()] ]} 2 ∅ tt ∅.

(** * Properties *)

(** ** Big-endian bytes *)

Lemma byte_of_N_to_N (n : N) : Byte.to_N (byte_of_N n) = (n mod 256)%N.
Proof.
  unfold byte_of_N.
  destruct (Byte.of_N (n mod 256)) as [b|] eqn:Hb; simpl.
  - by apply Byte.to_of_N.
  - apply Byte.of_N_None_iff in Hb.
    pose proof (N.mod_upper_bound n 256). lia.
Qed.

Lemma bytes_value_snoc (l : list byte) (x : byte) :
  bytes_value (l ++ [x]) = (bytes_value l * 256 + Byte.to_N x)%N.
Proof. unfold bytes_value. by rewrite fold_left_app. Qed.

Lemma nat_bytes_acc (fuel : nat) : ∀ n acc,
  nat_bytes fuel n acc = nat_bytes fuel n [] ++ acc.
Proof.
  induction fuel as [|fuel IH]; intros n acc; simpl; [done|].
  destruct (n =? 0)%N; [done|].
  rewrite (IH _ (_ :: acc)), (IH _ [_]). by rewrite <- app_assoc.
Qed.

Lemma nat_bytes_value (fuel : nat) : ∀ n,
  (n < 2 ^ N.of_nat fuel)%N → bytes_value (nat_bytes fuel n []) = n.
Proof.
  induction fuel as [|fuel IH]; intros n Hn.
  - simpl in *. assert (n = 0%N) as -> by lia. done.
  - simpl. destruct (N.eqb_spec n 0) as [->|Hne]; [done|].
    rewrite nat_bytes_acc, bytes_value_snoc, byte_of_N_to_N, IH.
    + symmetry. rewrite N.mul_comm. apply N.div_mod. lia.
    + rewrite Nat2N.inj_succ, N.pow_succ_r' in Hn.
      apply N.Div0.div_lt_upper_bound. lia.
Qed.

Lemma nat_bytes_no_leading_zero (fuel : nat) : ∀ n,
  (n < 2 ^ N.of_nat fuel)%N → head (nat_bytes fuel n []) ≠ Some "000"%byte.
Proof.
  induction fuel as [|fuel IH]; intros n Hn; simpl; [done|].
  destruct (N.eqb_spec n 0) as [->|Hne]; [done|].
  rewrite nat_bytes_acc.
  assert (n / 256 < 2 ^ N.of_nat fuel)%N as Hlt.
  { rewrite Nat2N.inj_succ, N.pow_succ_r' in Hn.
    apply N.Div0.div_lt_upper_bound. lia. }
  specialize (IH _ Hlt).
  destruct (nat_bytes fuel (n / 256) []) as [|x l] eqn:Hl; simpl in *; [|done].
  assert (n / 256 = 0)%N as Hz.
  { apply nat_bytes_value in Hlt. rewrite Hl in Hlt. done. }
  intros [= Hb].
  pose proof (byte_of_N_to_N n) as Hv. rewrite Hb in Hv. simpl in Hv.
  pose proof (N.div_mod n 256). lia.
Qed.

Lemma big_SetBytes_Bytes (b : Z) : 0 ≤ b → big_SetBytes (big_Bytes b) = b.
Proof.
  intros Hb. unfold big_SetBytes, big_Bytes.
  rewrite nat_bytes_value.
  - rewrite N2Z.inj_abs_N. lia.
  - rewrite N2Nat.id. apply N.size_gt.
Qed.

Lemma big_Bytes_minimal (b : Z) : head (big_Bytes b) ≠ Some "000"%byte.
Proof.
  unfold big_Bytes. apply nat_bytes_no_leading_zero.
  rewrite N2Nat.id. apply N.size_gt.
Qed.

Lemma BytesToAddress_id (a : Address) : is_address a → BytesToAddress a = a.
Proof.
  unfold is_address, BytesToAddress. intros Ha.
  rewrite Ha, Nat.sub_diag, drop_0, Ha, Nat.sub_diag. done.
Qed.

Lemma BytesToAddress_is_address (b : list byte) : is_address (BytesToAddress b).
Proof.
  unfold is_address, BytesToAddress, AddressLength.
  rewrite length_app, length_replicate, length_drop. lia.
Qed.

(** ** The key scheme *)

(** C6. Keys round-trip: decoding the account key of an address gives the
    address back, decoding the pod key of a non-negative block number gives
    the number back.  The account key is the byte 'a' followed by the address
    bytes; the pod key is the byte 'p' followed by the big-endian bytes of
    the block without a leading zero byte, none at all for zero. *)
Theorem key_roundtrip :
  (∀ a : Address, is_address a →
     accountKey a = "a"%byte :: a ∧ keyToAddress (accountKey a) = Done a) ∧
  (∀ b : Z, 0 ≤ b →
     podKey (Some b) = Done ("p"%byte :: big_Bytes b) ∧
     (podKey (Some b) ≫= keyToBlock) = Done b ∧
     big_SetBytes (big_Bytes b) = b ∧
     head (big_Bytes b) ≠ Some "000"%byte) ∧
  big_Bytes 0 = [].
Proof.
  split; [|split].
  - intros a Ha. split; [done|].
    unfold keyToAddress, accountKey, PreKey, Address_Bytes. simpl.
    by rewrite BytesToAddress_id.
  - intros b Hb. split; [done|]. split; [|split].
    + unfold podKey, keyToBlock, PreKey. simpl. by rewrite big_SetBytes_Bytes.
    + by apply big_SetBytes_Bytes.
    + apply big_Bytes_minimal.
  - reflexivity.
Qed.

Lemma key_roundtrip_witness :
  keyToAddress (accountKey addr1) = Done addr1 ∧
  (podKey (Some 1000000) ≫= keyToBlock) = Done 1000000.
Proof.
  split.
  - apply (proj1 key_roundtrip addr1). reflexivity.
  - apply (proj1 (proj2 key_roundtrip) 1000000). lia.
Defined.

(** C8. [stateTypeFromPrefix] returns [AccountState] for the byte 'a' and
    [PodState] for the byte 'p'; for every other byte it panics: it neither
    returns a state type nor has an error result to return. *)
Theorem stateTypeFromPrefix_total_or_fatal :
  stateTypeFromPrefix "a"%byte = Done AccountState ∧
  stateTypeFromPrefix "p"%byte = Done PodState ∧
  ∀ prefix : byte, prefix ≠ "a"%byte → prefix ≠ "p"%byte →
    stateTypeFromPrefix prefix = Panicked "unknown state type".
Proof.
  split; [done|]. split; [done|].
  intros prefix Ha Hp. unfold stateTypeFromPrefix.
  by rewrite !decide_False.
Qed.

Lemma stateTypeFromPrefix_total_or_fatal_witness :
  stateTypeFromPrefix "x"%byte = Panicked "unknown state type".
Proof.
  apply (proj2 (proj2 stateTypeFromPrefix_total_or_fatal) "x"%byte); discriminate.
Defined.

(** ** The pod object *)

Section PodProperties.
Context `{Crypto} {DB NodeSet : Type}.

Lemma newPodObject_Done (target : DB) (b : Z) (pod : StatePod) :
  newPodObject target (Some b) pod =
  Done (mkPodObject (Some b) (Keccak256Hash ("p"%byte :: big_Bytes b))
          (if decide (GasLimit pod = 0)
           then mkStatePod 1000000 (CurrentGasLimit pod) (Passengers pod)
           else pod)
          target None false false).
Proof. reflexivity. Qed.

(** A nil block is no block number: the constructor panics on it, when it
    takes the bytes of the block for the key hash. *)
Lemma newPodObject_nil_block (target : DB) (pod : StatePod) :
  newPodObject target None pod = Panicked nil_dereference.
Proof. reflexivity. Qed.

(** C3. Default gas limit of a pod: for every database, block number and
    pod data, [newPodObject] returns an object; its gas limit is 1000000
    when the data has gas limit 0, and is the gas limit of the data,
    unchanged, when that is positive.  The other fields of the data are
    kept in both cases. *)
Theorem newPodObject_gas_limit (target : DB) (b : Z) (pod : StatePod) :
  ∃ o : podObject,
    newPodObject target (Some b) pod = Done o ∧
    block o = Some b ∧
    CurrentGasLimit (data o) = CurrentGasLimit pod ∧
    Passengers (data o) = Passengers pod ∧
    (GasLimit pod = 0 → GasLimit (data o) = 1000000) ∧
    (0 < GasLimit pod → GasLimit (data o) = GasLimit pod).
Proof.
  eexists. split; [apply newPodObject_Done|]. simpl.
  destruct (decide (GasLimit pod = 0)) as [Hz|Hnz]; simpl;
    repeat split; try done; lia.
Qed.

(** C7. [Empty] is true exactly for a pod with no block and a zero gas
    limit, and false for every other combination. *)
Theorem podObject_Empty_iff (o : @podObject DB) :
  (podObject_Empty o = true ↔ block o = None ∧ GasLimit (data o) = 0) ∧
  (podObject_Empty o = false ↔ ¬ (block o = None ∧ GasLimit (data o) = 0)).
Proof.
  unfold podObject_Empty.
  destruct (decide (block o = None)) as [Hb|Hb],
           (decide (GasLimit (data o) = 0)) as [Hg|Hg];
    repeat first [rewrite (bool_decide_eq_true_2 _ Hb)
                 |rewrite (bool_decide_eq_true_2 _ Hg)
                 |rewrite (bool_decide_eq_false_2 _ Hb)
                 |rewrite (bool_decide_eq_false_2 _ Hg)];
    simpl; intuition congruence.
Qed.

(** C5, as the code has it: [DeepCopy] of a pod returns the nil object
    whatever the pod and the target database, so it returns no clone. *)
Theorem podObject_DeepCopy_nil (o : @podObject DB) (target : DB) :
  podObject_DeepCopy o target = None ∧
  ¬ ∃ c, podObject_DeepCopy o target = Some c ∧ is_clone_of o target c.
Proof. split; [done|]. by intros (c & [=] & _). Qed.
End PodProperties.

Lemma newPodObject_gas_limit_witness :
  ∃ o : podObject,
    @newPodObject sample_crypto unit tt (Some 42) (mkStatePod 0 0 []) = Done o ∧
    GasLimit (data o) = 1000000.
Proof.
  destruct (@newPodObject_gas_limit sample_crypto unit tt 42 (mkStatePod 0 0 []))
    as (o & Ho & _ & _ & _ & Hzero & _).
  exists o. split; [exact Ho | apply Hzero; reflexivity].
Defined.

Lemma podObject_Empty_iff_witness :
  podObject_Empty (mkPodObject None [] (mkStatePod 0 7 []) tt None false false) = true ∧
  podObject_Empty (mkPodObject (Some 42) [] (mkStatePod 0 7 []) tt None false false) = false.
Proof.
  split.
  - apply (proj1 (podObject_Empty_iff _)). split; reflexivity.
  - apply (proj2 (podObject_Empty_iff _)). intros [Hb _]. discriminate Hb.
Defined.

(** ** The slim pod *)

Lemma fold_addresses (l : list (list byte)) (acc : list Address) :
  fold_left (λ acc p, acc ++ [BytesToAddress p]) l acc = acc ++ (BytesToAddress <$> l).
Proof.
  revert acc. induction l as [|p l IH]; intros acc.
  - by rewrite app_nil_r.
  - rewrite fmap_cons. simpl. rewrite IH. by rewrite <- app_assoc.
Qed.

Lemma BytesToAddress_fmap_id (ps : list Address) :
  Forall is_address ps → BytesToAddress <$> ps = ps.
Proof.
  induction 1 as [|a ps Ha _ IH]; [done|].
  by rewrite fmap_cons, BytesToAddress_id, IH.
Qed.

Section SlimPodPerLoop.
Context `{GoLanguage} `{snapshot.PodCodec}.
Hypothesis per_loop : range_variable = PerLoop.

(** With one variable for the whole loop every slice is over the same
    array, which ends up holding the last passenger. *)
Lemma SlimPod_range_per_loop (ps : list Address) : ∀ lp mem slices,
  snapshot.SlimPod_range ps lp mem slices =
  (match last ps with Some a => <[lp := a]> mem | None => mem end,
   slices ++ replicate (length ps) lp).
Proof.
  induction ps as [|a ps IH]; intros lp mem slices; simpl.
  - by rewrite app_nil_r.
  - rewrite per_loop, IH, <- app_assoc. simpl. f_equal.
    destruct ps as [|b ps]; [done|].
    rewrite last_cons_cons.
    destruct (last (b :: ps)) eqn:Hl.
    + unfold snapshot.arrays, snapshot.loc in *. by rewrite insert_insert_eq.
    + by apply last_None in Hl.
Qed.

Lemma SlimPod_per_loop (g c : Z) (ps : list Address) (a : Address) :
  snapshot.SlimPod g c (ps ++ [a]) =
  snapshot.mkPod g c (replicate (S (length ps)) a).
Proof.
  unfold snapshot.SlimPod. rewrite SlimPod_range_per_loop.
  rewrite last_snoc, length_app. simpl.
  rewrite Nat.add_1_r. f_equal.
  rewrite fmap_replicate. unfold snapshot.read_slice, snapshot.arrays, snapshot.loc.
  by rewrite lookup_insert_eq.
Qed.

(** C10, as the code has it when the range variable is one per loop: the
    bytes of [SlimPodRLP], decoded by [FullStatePod], carry the gas limits
    of the input, but every passenger of the result is the last passenger
    of the input.  The codec only has to decode what it encoded. *)
Theorem SlimPod_roundtrip_last_passenger (g c : Z) (ps : list Address) (a : Address)
    (data : list byte) :
  is_address a →
  snapshot.EncodeToBytes (snapshot.mkPod g c (replicate (S (length ps)) a)) = Ok data →
  snapshot.DecodeBytes data = Ok (snapshot.mkPod g c (replicate (S (length ps)) a)) →
  snapshot.SlimPodRLP g c (ps ++ [a]) = Done data ∧
  snapshot.FullStatePod data = Ok (mkStatePod g c (replicate (S (length ps)) a)).
Proof.
  intros Ha Henc Hdec. split.
  - unfold snapshot.SlimPodRLP. by rewrite SlimPod_per_loop, Henc.
  - unfold snapshot.FullStatePod, snapshot.FullPod. rewrite Hdec. simpl.
    rewrite fold_addresses. simpl. rewrite BytesToAddress_id by done.
    do 2 f_equal. rewrite fmap_replicate. by rewrite BytesToAddress_id.
Qed.
End SlimPodPerLoop.

Section SlimPodPerIteration.
Context `{GoLanguage} `{snapshot.PodCodec}.
Hypothesis per_iteration : range_variable = PerIteration.

Lemma SlimPod_range_per_iteration (ps : list Address) : ∀ lp mem slices,
  Forall (λ l, (l < lp)%nat) slices →
  snapshot.read_slice (snapshot.SlimPod_range ps lp mem slices).1 <$>
    (snapshot.SlimPod_range ps lp mem slices).2 =
  (snapshot.read_slice mem <$> slices) ++ ps.
Proof.
  induction ps as [|a ps IH]; intros lp mem slices Hlt; simpl.
  - by rewrite app_nil_r.
  - rewrite per_iteration, IH.
    + rewrite fmap_app, <- app_assoc. simpl. f_equal.
      * apply Forall_fmap_ext_1. eapply Forall_impl; [exact Hlt|].
        intros l Hl. unfold snapshot.read_slice, snapshot.arrays, snapshot.loc in *.
        rewrite lookup_insert_ne by lia. done.
      * unfold snapshot.read_slice, snapshot.arrays, snapshot.loc in *.
        by rewrite lookup_insert_eq.
    + apply Forall_app. split.
      * eapply Forall_impl; [exact Hlt|]. simpl. lia.
      * repeat constructor.
Qed.

Lemma SlimPod_per_iteration (g c : Z) (ps : list Address) :
  snapshot.SlimPod g c ps = snapshot.mkPod g c ps.
Proof.
  unfold snapshot.SlimPod.
  pose proof (SlimPod_range_per_iteration ps O ∅ [] (Forall_nil_2 _)) as Hr.
  destruct (snapshot.SlimPod_range ps O ∅ []) as [mem slices] eqn:Hrun.
  unfold snapshot.arrays, snapshot.loc in *. rewrite Hrun in Hr.
  simpl in Hr. by rewrite Hr.
Qed.

(** With a new variable for every iteration the slim pod round-trips. *)
Lemma SlimPod_roundtrip_per_iteration (g c : Z) (ps : list Address) (data : list byte) :
  Forall is_address ps →
  snapshot.EncodeToBytes (snapshot.mkPod g c ps) = Ok data →
  snapshot.DecodeBytes data = Ok (snapshot.mkPod g c ps) →
  snapshot.SlimPodRLP g c ps = Done data ∧
  snapshot.FullStatePod data = Ok (mkStatePod g c ps).
Proof.
  intros Hps Henc Hdec. split.
  - unfold snapshot.SlimPodRLP. by rewrite SlimPod_per_iteration, Henc.
  - unfold snapshot.FullStatePod, snapshot.FullPod. rewrite Hdec. simpl.
    rewrite fold_addresses. simpl. by rewrite BytesToAddress_fmap_id.
Qed.
End SlimPodPerIteration.

Lemma SlimPod_roundtrip_last_passenger_witness :
  ∃ data,
    @snapshot.SlimPodRLP go_before_1_22 rlp_pod_codec 1000000 0 [addr1; addr2] = Done data ∧
    @snapshot.FullStatePod rlp_pod_codec data = Ok (mkStatePod 1000000 0 [addr2; addr2]) ∧
    mkStatePod 1000000 0 [addr2; addr2] ≠ mkStatePod 1000000 0 [addr1; addr2].
Proof.
  eexists. split; [|split].
  - apply (@SlimPod_roundtrip_last_passenger go_before_1_22 rlp_pod_codec eq_refl
             1000000 0 [addr1] addr2); [reflexivity | vm_compute; reflexivity | vm_compute; reflexivity].
  - apply (@SlimPod_roundtrip_last_passenger go_before_1_22 rlp_pod_codec eq_refl
             1000000 0 [addr1] addr2); [reflexivity | vm_compute; reflexivity | vm_compute; reflexivity].
  - discriminate.
Defined.

(** ** The dump *)

Section DumpProperties.
Context {S C : Type} `{DumpEnv S} `{DumpCollector C}.

Lemma dump_loop_pod_missing (s : S) (conf : DumpConfig) key v data rest (st : dump_state) :
  DecodePod v = Ok data → trie_GetKey s key = None →
  dump_loop s conf ((key, "p"%byte :: v) :: rest) st = Panicked slice_out_of_range.
Proof.
  intros Hdec Hkey. simpl. unfold dump_pod. by rewrite Hdec, Hkey.
Qed.

Lemma dump_loop_account_missing (s : S) (conf : DumpConfig) key v data rest
    (st : dump_state) :
  DecodeAccount v = Ok data → trie_GetKey s key = None →
  dump_loop s conf ((key, "a"%byte :: v) :: rest) st =
  if OnlyWithAddresses conf then dump_loop s conf rest (count_missing st)
  else Panicked slice_out_of_range.
Proof.
  intros Hdec Hkey. simpl. unfold dump_account. rewrite Hdec, Hkey. simpl.
  by destruct (OnlyWithAddresses conf).
Qed.

(** C4, as the code has it: when the first leaf of the dump decodes and its
    key has no preimage, a pod makes [DumpToCollector] panic, and so does an
    account unless [OnlyWithAddresses] is set; with [OnlyWithAddresses] an
    account is counted as missing, not emitted, and the dump goes on with the
    remaining leaves. *)
Theorem dump_missing_preimage (s : S) (c : C) (conf : DumpConfig) key v rest :
  trie_GetKey s key = None →
  (∀ data, trie_leaves s (Start conf) = (key, "p"%byte :: v) :: rest →
     DecodePod v = Ok data →
     DumpToCollector s c (Some conf) = Panicked slice_out_of_range) ∧
  (∀ data, trie_leaves s (Start conf) = (key, "a"%byte :: v) :: rest →
     DecodeAccount v = Ok data → OnlyWithAddresses conf = false →
     DumpToCollector s c (Some conf) = Panicked slice_out_of_range) ∧
  (∀ data, trie_leaves s (Start conf) = (key, "a"%byte :: v) :: rest →
     DecodeAccount v = Ok data → OnlyWithAddresses conf = true →
     DumpToCollector s c (Some conf) =
     dump_loop s conf rest (mkDumpState (OnRoot (trie_Hash s) c) 1 0 0 None)).
Proof.
  intros Hkey. unfold DumpToCollector. simpl. repeat split.
  - intros data -> Hdec. by eapply dump_loop_pod_missing.
  - intros data -> Hdec Honly.
    erewrite dump_loop_account_missing by done. by rewrite Honly.
  - intros data -> Hdec Honly.
    erewrite dump_loop_account_missing by done. by rewrite Honly.
Qed.

End DumpProperties.

Section DumpPods.
Context {S : Type} `{DumpEnv S}.

Lemma dump_loop_pods (s : S) (conf : DumpConfig) (leaves : list (list byte * list byte)) :
  Forall (pod_leaf s) leaves →
  ∀ st : @dump_state (list dump_line),
    accounts st = 0 → 0 ≤ pods st < 2 ^ 64 →
    ∃ st', dump_loop s conf leaves st = Done st' ∧
           accounts st' = 0 ∧
           pods st' = (pods st + Z.of_nat (length leaves)) mod 2 ^ 64 ∧
           missingPreimages st' = missingPreimages st ∧
           nextKey st' = nextKey st ∧
           length (collector st') = (length (collector st) + length leaves)%nat.
Proof.
  induction 1 as [|[key value] leaves (v & data & pre & Hv & Hdec & Hkey & Hpre) _ IH];
    intros st Hacc Hpods.
  - exists st. simpl. rewrite Z.add_0_r, Z.mod_small by done.
    rewrite Nat.add_0_r. done.
  - simpl in Hv, Hkey. subst value. simpl. unfold dump_pod. rewrite Hdec, Hkey. simpl.
    destruct pre as [|p pre]; [done|]. simpl.
    rewrite decide_False by (simpl; lia).
    edestruct IH as (st' & Hrun & Hacc' & Hpods' & Hmiss' & Hnext' & Hlen');
      [| |exists st'; split; [exact Hrun|]].
    + done.
    + simpl. unfold wrap_uint64. apply Z.mod_pos_bound. lia.
    + simpl in *. repeat split; try done.
      * rewrite Hpods'. unfold wrap_uint64. rewrite Zplus_mod_idemp_l.
        f_equal. lia.
      * rewrite Hlen'. unfold iterativeDump_OnPod. rewrite length_app. simpl. lia.
Qed.

(** C9, as the code has it: pods do not count towards [Max].  When every
    leaf is a decodable pod with a key preimage, [DumpToCollector] writes
    the root and then one line for every leaf, whatever [Max] is, and returns
    no continuation key. *)
Theorem dump_pods_ignore_max (s : S) (out : list dump_line) (conf : DumpConfig) :
  Forall (pod_leaf s) (trie_leaves s (Start conf)) →
  ∃ st, DumpToCollector s out (Some conf) = Done st ∧
        nextKey st = None ∧
        accounts st = 0 ∧
        pods st = Z.of_nat (length (trie_leaves s (Start conf))) mod 2 ^ 64 ∧
        length (collector st) =
          (length out + 1 + length (trie_leaves s (Start conf)))%nat.
Proof.
  intros Hleaves. unfold DumpToCollector. simpl.
  edestruct (dump_loop_pods s conf _ Hleaves) as (st & Hrun & Hacc & Hpods & _ & Hnext & Hlen);
    [| |exists st; split; [exact Hrun|]].
  - done.
  - simpl. lia.
  - simpl in *. repeat split; try done.
    rewrite Hlen. unfold iterativeDump_OnRoot. rewrite length_app. simpl. lia.
Qed.
End DumpPods.

Lemma dump_missing_preimage_witness :
  @DumpToCollector _ _ sample_env iterativeDump sample_trie_pod_no_preimage []
    (Some (sample_config true 0)) = Panicked slice_out_of_range ∧
  @DumpToCollector _ _ sample_env iterativeDump sample_trie_account_no_preimage []
    (Some (sample_config false 0)) = Panicked slice_out_of_range ∧
  @DumpToCollector _ _ sample_env iterativeDump sample_trie_one_account []
    (Some (sample_config true 0)) =
    Done (mkDumpState [RootLine (replicate 32 "000"%byte)] 1 0 0 None).
Proof.
  split; [|split].
  - destruct (@dump_missing_preimage _ _ sample_env iterativeDump
                sample_trie_pod_no_preimage [] (sample_config true 0) key1
                (tail sample_pod_value) [(key2, sample_account_value)])
      as (Hpod & _ & _); [reflexivity|].
    apply (Hpod (mkStatePod 1000000 0 [])); vm_compute; reflexivity.
  - destruct (@dump_missing_preimage _ _ sample_env iterativeDump
                sample_trie_account_no_preimage [] (sample_config false 0) key1
                (tail sample_account_value) [(key2, sample_pod_value)])
      as (_ & Hacc & _); [reflexivity|].
    apply (Hacc (mkStateAccount 1 (Some 100) (replicate 32 "000"%byte)
                   (replicate 32 "000"%byte))); vm_compute; reflexivity.
  - destruct (@dump_missing_preimage _ _ sample_env iterativeDump
                sample_trie_one_account [] (sample_config true 0) key1
                (tail sample_account_value) [])
      as (_ & _ & Hskip); [reflexivity|].
    rewrite (Hskip (mkStateAccount 1 (Some 100) (replicate 32 "000"%byte)
                      (replicate 32 "000"%byte))) by (vm_compute; reflexivity).
    reflexivity.
Defined.

Lemma dump_pods_ignore_max_witness :
  ∃ st, @DumpToCollector _ _ sample_env iterativeDump sample_trie_two_pods []
          (Some (sample_config false 1)) = Done st ∧
        nextKey st = None ∧ pods st = 2 ∧ length (collector st) = 3%nat.
Proof.
  destruct (@dump_pods_ignore_max _ sample_env sample_trie_two_pods [] (sample_config false 1))
    as (st & Hrun & Hnext & _ & Hpods & Hlen).
  - change (@trie_leaves _ sample_env sample_trie_two_pods (Start (sample_config false 1)))
      with [(key1, sample_pod_value); (key2, sample_pod_value)].
    apply Forall_cons; split; [|apply Forall_cons; split; [|apply Forall_nil_2]].
    + exists (tail sample_pod_value), (mkStatePod 1000000 0 []), ("p"%byte :: big_Bytes 42).
      split; [reflexivity|]. split; [vm_compute; reflexivity|].
      split; [vm_compute; reflexivity | discriminate].
    + exists (tail sample_pod_value), (mkStatePod 1000000 0 []), ("p"%byte :: big_Bytes 43).
      split; [reflexivity|]. split; [vm_compute; reflexivity|].
      split; [vm_compute; reflexivity | discriminate].
  - exists st. split; [exact Hrun|]. split; [exact Hnext|]. split; [exact Hpods | exact Hlen].
Defined.

(** ** The journal *)

Section JournalProperties.
Context `{Crypto}.
Context {stateObject Log AccessList Backing : Type}.
Context `{!@StateDBMethods stateObject Log AccessList Backing}.

Implicit Types (es l : list (@journalEntry stateObject)) (d : gmap Hash Z).
Implicit Types (statedb : @StateDB stateObject Log AccessList Backing).
Implicit Types (j : @journal stateObject).

Lemma undo_entries_app l1 l2 d statedb :
  undo_entries (l1 ++ l2) d statedb =
  undo_entries l1 d statedb ≫= λ r, undo_entries l2 r.1 r.2.
Proof.
  revert d statedb. induction l1 as [|e l1 IH]; intros d statedb; simpl; [done|].
  destruct (entry_revert e statedb) as [statedb'|]; simpl; [|done].
  destruct (dirtied e) as [keyHash|]; simpl; [|done].
  apply IH.
Qed.

Lemma entry_at_lookup es (n : nat) e :
  es !! n = Some e → entry_at es (Z.of_nat n) = Done e.
Proof.
  intros He. unfold entry_at.
  rewrite decide_False by lia. by rewrite Nat2Z.id, He.
Qed.

(** The index loop visits the entries below [n], from the last one down to
    the checkpoint, and runs into index -1 when the checkpoint is negative. *)
Lemma revert_loop_spec (n : nat) : ∀ fuel es snapshot d statedb,
  (n ≤ length es)%nat → (n < fuel)%nat →
  revert_loop fuel es snapshot (Z.of_nat n - 1) d statedb =
  undo_entries (rev (drop (Z.to_nat snapshot) (take n es))) d statedb ≫= λ r,
    if decide (snapshot < 0) then Panicked index_out_of_range else Done r.
Proof.
  induction n as [|n IH]; intros fuel es snapshot d statedb Hlen Hfuel;
    (destruct fuel as [|fuel]; [lia|]).
  - rewrite take_0, drop_nil. simpl.
    destruct (decide (snapshot < 0)) as [Hlt|Hge].
    + rewrite decide_True by lia. done.
    + rewrite decide_False by lia. done.
  - destruct (lookup_lt_is_Some_2 es n ltac:(lia)) as [e He].
    simpl revert_loop.
    replace (Z.of_nat (S n) - 1) with (Z.of_nat n) by lia.
    rewrite (take_S_r _ _ _ He).
    destruct (decide (Z.of_nat n >= snapshot)) as [Hge|Hlt].
    + rewrite (entry_at_lookup _ _ _ He). simpl.
      rewrite drop_app_le by (rewrite length_take; lia).
      rewrite rev_app_distr. simpl.
      destruct (entry_revert e statedb) as [statedb'|]; simpl; [|done].
      destruct (dirtied e) as [keyHash|]; simpl; [|done].
      apply IH; lia.
    + rewrite drop_ge by (rewrite length_app, length_take; simpl; lia).
      simpl. rewrite decide_False by lia. done.
Qed.

Lemma revert_in_range j statedb (snapshot : Z) :
  0 ≤ snapshot ≤ journal_length j →
  revert j statedb snapshot =
  undo_entries (rev (drop (Z.to_nat snapshot) (entries j))) (dirties j) statedb ≫= λ r,
    Done (mkJournal (take (Z.to_nat snapshot) (entries j)) r.1, r.2).
Proof.
  unfold journal_length. intros Hs. unfold revert.
  rewrite (revert_loop_spec (length (entries j))) by lia.
  rewrite firstn_all.
  destruct (undo_entries _ _ _) as [[d statedb']|]; simpl; [|done].
  rewrite decide_False by lia. simpl.
  unfold truncate. rewrite decide_False by lia. done.
Qed.

Lemma revert_negative j statedb (snapshot : Z) :
  snapshot < 0 →
  revert j statedb snapshot =
  undo_entries (rev (entries j)) (dirties j) statedb ≫= λ _,
    Panicked index_out_of_range.
Proof.
  intros Hs. unfold revert.
  rewrite (revert_loop_spec (length (entries j))) by lia.
  rewrite firstn_all. replace (Z.to_nat snapshot) with O by lia. rewrite drop_0.
  destruct (undo_entries _ _ _) as [[d statedb']|]; simpl; [|done].
  rewrite decide_True by lia. done.
Qed.

(** C1. Nested checkpoints compose: for checkpoints [s1 < s2] below the
    length of the journal, reverting to [s2] and then to [s1] gives the
    result of reverting to [s1] at once: the same entries, the same dirty
    counts, the same database, or the same panic.  For a checkpoint from 0
    up to the length, [revert] undoes the entries from the last one down to
    the checkpoint and cuts the sequence to the checkpoint. *)
Theorem journal_revert_compose j statedb (s1 s2 : Z) :
  s1 < s2 < journal_length j →
  (revert j statedb s2 ≫= λ r, revert r.1 r.2 s1) = revert j statedb s1 ∧
  (0 ≤ s1 →
   revert j statedb s1 =
   undo_entries (rev (drop (Z.to_nat s1) (entries j))) (dirties j) statedb ≫= λ r,
     Done (mkJournal (take (Z.to_nat s1) (entries j)) r.1, r.2)).
Proof.
  intros Hs. split; [|intros H0s1; apply revert_in_range; lia].
  pose proof Hs as Hs'. unfold journal_length in Hs'.
  destruct (decide (s2 < 0)) as [Hs2|Hs2].
  - rewrite !revert_negative by lia.
    by destruct (undo_entries _ _ _) as [[d statedb']|].
  - rewrite (revert_in_range j statedb s2) by lia.
    destruct (decide (s1 < 0)) as [Hs1|Hs1].
    + rewrite (revert_negative j statedb s1) by lia.
      replace (rev (entries j)) with
        (rev (drop (Z.to_nat s2) (entries j)) ++ rev (take (Z.to_nat s2) (entries j)))
        by (by rewrite <- rev_app_distr, take_drop).
      rewrite undo_entries_app.
      destruct (undo_entries (rev (drop _ _)) _ _) as [[d statedb']|]; simpl; [|done].
      by rewrite revert_negative by lia.
    + rewrite (revert_in_range j statedb s1) by lia.
      replace (drop (Z.to_nat s1) (entries j)) with
        (drop (Z.to_nat s1) (take (Z.to_nat s2) (entries j)) ++
         drop (Z.to_nat s2) (entries j))
        by (rewrite <- drop_app_le by (rewrite length_take; lia);
            by rewrite take_drop).
      rewrite rev_app_distr, undo_entries_app.
      destruct (undo_entries (rev (drop _ _)) _ _) as [[d statedb']|]; simpl; [|done].
      rewrite revert_in_range by (unfold journal_length; simpl; rewrite length_take; lia).
      simpl. rewrite take_take. by replace (Z.to_nat s1 `min` Z.to_nat s2)%nat
        with (Z.to_nat s1) by lia.
Qed.
End JournalProperties.

Lemma journal_revert_compose_witness :
  1 < 3 < journal_length sample_journal ∧
  (@revert sample_crypto _ _ _ _ sample_methods sample_journal sample_statedb 3 ≫= λ r,
     @revert sample_crypto _ _ _ _ sample_methods r.1 r.2 1) =
  @revert sample_crypto _ _ _ _ sample_methods sample_journal sample_statedb 1 ∧
  @revert sample_crypto _ _ _ _ sample_methods sample_journal sample_statedb 1 =
  Done (sample_journal_after, sample_statedb_after).
Proof.
  split; [vm_compute; split; reflexivity|]. split.
  - apply journal_revert_compose. vm_compute; split; reflexivity.
  - vm_cast_no_check (eq_refl (Done (sample_journal_after, sample_statedb_after))).
Defined.

(** ** The dirty counts *)

Lemma wrap_int_small (z : Z) : - 2 ^ 63 ≤ z < 2 ^ 63 → wrap_int z = z.
Proof. intros Hz. unfold wrap_int. rewrite Z.mod_small; lia. Qed.

Lemma occurrences_nonneg h l : 0 ≤ occurrences h l.
Proof. unfold occurrences. lia. Qed.

Lemma occurrences_le_length h l : occurrences h l ≤ Z.of_nat (length l).
Proof. unfold occurrences. pose proof (length_filter (λ x, x = h) l). lia. Qed.

Lemma occurrences_cons h x l :
  occurrences h (x :: l) = (if decide (x = h) then 1 else 0) + occurrences h l.
Proof.
  unfold occurrences. rewrite filter_cons.
  destruct (decide (x = h)); simpl; lia.
Qed.

Lemma occurrences_nil h : occurrences h [] = 0.
Proof. reflexivity. Qed.

Lemma occurrences_app h l1 l2 :
  occurrences h (l1 ++ l2) = occurrences h l1 + occurrences h l2.
Proof. unfold occurrences. rewrite filter_app, length_app. lia. Qed.

Lemma count_map_lookup l h :
  count_map l !! h =
  if decide (occurrences h l = 0) then None else Some (occurrences h l).
Proof.
  induction l as [|x l IH]; simpl.
  - by rewrite lookup_empty.
  - rewrite occurrences_cons. pose proof (occurrences_nonneg h l) as Hnn.
    destruct (decide (x = h)) as [->|Hne].
    + rewrite lookup_insert_eq, IH.
      destruct (decide (occurrences h l = 0)) as [Hz|Hz]; simpl.
      * rewrite Hz. done.
      * rewrite decide_False by lia. f_equal. lia.
    + rewrite lookup_insert_ne by done. rewrite IH. done.
Qed.

Lemma count_map_default l h : default 0 (count_map l !! h) = occurrences h l.
Proof.
  rewrite count_map_lookup.
  by destruct (decide (occurrences h l = 0)) as [->|].
Qed.

(** Goals that compare occurrence counts of lists built by [++] and [::]. *)
Ltac occurrences_arith :=
  intros; rewrite ?occurrences_app, ?occurrences_cons, ?occurrences_nil;
  repeat case_decide; try congruence; lia.

(** One more occurrence of [h]: the effect of [j.dirties[h]++]. *)
Lemma dirties_incr_count_map (h : Hash) (l l' : list Hash) :
  (∀ k, occurrences k l' = (if decide (k = h) then 1 else 0) + occurrences k l) →
  Z.of_nat (length l') < 2 ^ 63 →
  dirties_incr h (count_map l) = count_map l'.
Proof.
  intros Hocc Hlen. apply map_eq. intros k. unfold dirties_incr.
  rewrite count_map_default, (count_map_lookup l'), Hocc.
  pose proof (occurrences_nonneg k l). pose proof (occurrences_le_length h l').
  pose proof (Hocc h) as Hh. rewrite decide_True in Hh by done.
  pose proof (occurrences_nonneg h l).
  rewrite wrap_int_small by lia.
  destruct (decide (k = h)) as [->|Hne].
  - rewrite lookup_insert_eq, decide_False by lia. f_equal. lia.
  - rewrite lookup_insert_ne by done. by rewrite count_map_lookup.
Qed.

(** One occurrence of [h] less: the effect of the decrement in [revert],
    with the slot removed when the count reaches zero. *)
Lemma dirties_decr_count_map (h : Hash) (l l' : list Hash) :
  (∀ k, occurrences k l = (if decide (k = h) then 1 else 0) + occurrences k l') →
  Z.of_nat (length l) < 2 ^ 63 →
  dirties_decr h (count_map l) = count_map l'.
Proof.
  intros Hocc Hlen. apply map_eq. intros k. unfold dirties_decr.
  rewrite count_map_default.
  pose proof (occurrences_le_length h l).
  pose proof (Hocc h) as Hh. rewrite decide_True in Hh by done.
  pose proof (occurrences_nonneg h l').
  rewrite wrap_int_small by lia.
  rewrite lookup_insert_eq. simpl.
  rewrite (count_map_lookup l').
  destruct (decide (occurrences h l - 1 = 0)) as [Hz|Hz].
  - destruct (decide (k = h)) as [->|Hne].
    + rewrite lookup_delete_eq. rewrite decide_True by lia. done.
    + rewrite lookup_delete_ne by done. rewrite lookup_insert_ne by done.
      rewrite count_map_lookup, Hocc. by rewrite (decide_False (P := k = h)).
  - destruct (decide (k = h)) as [->|Hne].
    + rewrite lookup_insert_eq. rewrite decide_False by lia. f_equal. lia.
    + rewrite lookup_insert_ne by done.
      rewrite count_map_lookup, Hocc. by rewrite (decide_False (P := k = h)).
Qed.

Section JournalDirties.
Context `{Crypto}.
Context {stateObject Log AccessList Backing : Type}.
Context `{!@StateDBMethods stateObject Log AccessList Backing}.

Implicit Types (es pre suffix : list (@journalEntry stateObject)) (d : gmap Hash Z).
Implicit Types (statedb : @StateDB stateObject Log AccessList Backing).
Implicit Types (j : @journal stateObject) (ex : list Hash).
Implicit Types (ops : list (@journal_op stateObject)).

Lemma dirtied_hashes_app es1 es2 :
  dirtied_hashes (es1 ++ es2) = dirtied_hashes es1 ++ dirtied_hashes es2.
Proof. unfold dirtied_hashes. apply bind_app. Qed.

Lemma dirtied_hashes_singleton (e : @journalEntry stateObject) keyHash :
  dirtied e = Done keyHash →
  dirtied_hashes [e] = match keyHash with Some h => [h] | None => [] end.
Proof.
  intros He. unfold dirtied_hashes. rewrite bind_singleton, He. done.
Qed.

Lemma dirtied_hashes_length es : (length (dirtied_hashes es) ≤ length es)%nat.
Proof.
  induction es as [|e es IH]; [done|].
  unfold dirtied_hashes in *. rewrite bind_cons, length_app.
  destruct (dirtied e) as [[h|]|]; simpl length; lia.
Qed.

(** Undoing a suffix of the entries takes their hashes out of the counts. *)
Lemma undo_entries_dirties suffix : ∀ pre ex d statedb d' statedb',
  d = count_map (dirtied_hashes (pre ++ suffix) ++ ex) →
  Z.of_nat (length (pre ++ suffix) + length ex) < 2 ^ 63 →
  undo_entries (rev suffix) d statedb = Done (d', statedb') →
  d' = count_map (dirtied_hashes pre ++ ex).
Proof.
  induction suffix as [|e suffix IH] using rev_ind;
    intros pre ex d statedb d' statedb' Hd Hlen Hundo.
  - simpl in Hundo. rewrite app_nil_r in Hd. congruence.
  - rewrite rev_app_distr in Hundo. simpl in Hundo.
    destruct (entry_revert e statedb) as [statedb1|]; simpl in Hundo; [|done].
    destruct (dirtied e) as [keyHash|] eqn:He; simpl in Hundo; [|done].
    eapply IH; [| |exact Hundo].
    + rewrite app_assoc, dirtied_hashes_app, (dirtied_hashes_singleton _ _ He) in Hd.
      destruct keyHash as [h|]; [|by rewrite app_nil_r in Hd].
      subst d. apply dirties_decr_count_map.
      * occurrences_arith.
      * pose proof (dirtied_hashes_length (pre ++ suffix)).
        rewrite !length_app in *. simpl in *. lia.
    + rewrite !length_app in *. simpl in *. lia.
Qed.

(** A checkpoint that [revert] returns from is within the journal. *)
Lemma revert_Done_in_range j statedb (snapshot : Z) r :
  revert j statedb snapshot = Done r → 0 ≤ snapshot ≤ journal_length j.
Proof.
  intros Hr. unfold journal_length.
  destruct (decide (snapshot < 0)) as [Hneg|Hnn].
  - rewrite revert_negative in Hr by done.
    by destruct (undo_entries _ _ _) as [[? ?]|].
  - destruct (decide (snapshot ≤ Z.of_nat (length (entries j)))) as [|Hbig]; [lia|].
    unfold revert in Hr.
    destruct (revert_loop _ _ _ _ _ _) as [[? ?]|]; simpl in Hr; [|done].
    unfold truncate in Hr. rewrite decide_True in Hr by lia. done.
Qed.

Lemma journal_step_dirties j statedb ex (op : @journal_op stateObject) j' statedb' :
  dirties j = count_map (dirtied_hashes (entries j) ++ ex) →
  Z.of_nat (length (entries j) + length ex) + 1 < 2 ^ 63 →
  journal_step (j, statedb) op = Done (j', statedb') →
  dirties j' = count_map (dirtied_hashes (entries j') ++ ex ++ explicit_dirty [op]) ∧
  (length (entries j') + length (ex ++ explicit_dirty [op]) ≤
     S (length (entries j) + length ex))%nat.
Proof.
  intros Hd Hlen Hstep. destruct op as [e|snapshot|h]; simpl in Hstep.
  - unfold append in Hstep.
    destruct (dirtied e) as [keyHash|] eqn:He; simpl in Hstep; [|done].
    assert (Hex : explicit_dirty [OpAppend e] = []) by done.
    rewrite Hex, app_nil_r.
    destruct keyHash as [h|]; injection Hstep as <- <-; simpl;
      rewrite dirtied_hashes_app, (dirtied_hashes_singleton _ _ He), length_app; simpl.
    + split; [|lia]. rewrite Hd. apply dirties_incr_count_map.
      * occurrences_arith.
      * pose proof (dirtied_hashes_length (entries j)).
        rewrite !length_app. simpl. lia.
    + rewrite app_nil_r. split; [done|lia].
  - assert (Hex : explicit_dirty [@OpRevert stateObject snapshot] = []) by done.
    rewrite Hex, app_nil_r.
    pose proof (revert_Done_in_range _ _ _ _ Hstep) as Hrange.
    unfold journal_length in Hrange.
    rewrite revert_in_range in Hstep by done.
    destruct (undo_entries _ _ _) as [[d1 statedb1]|] eqn:Hundo; simpl in Hstep; [|done].
    injection Hstep as <- <-. simpl. split.
    + eapply (undo_entries_dirties (drop (Z.to_nat snapshot) (entries j))); [| |exact Hundo].
      * by rewrite take_drop.
      * rewrite take_drop. lia.
    + rewrite length_take. lia.
  - assert (Hex : explicit_dirty [@OpDirty stateObject h] = [h]) by done.
    rewrite Hex, length_app. injection Hstep as <- <-. simpl. split; [|lia].
    rewrite Hd. apply dirties_incr_count_map.
    + occurrences_arith.
    + pose proof (dirtied_hashes_length (entries j)).
      rewrite !length_app. simpl. lia.
Qed.

Lemma journal_run_dirties ops : ∀ j statedb ex j' statedb',
  dirties j = count_map (dirtied_hashes (entries j) ++ ex) →
  Z.of_nat (length (entries j) + length ex + length ops) < 2 ^ 63 →
  journal_run ops (j, statedb) = Done (j', statedb') →
  dirties j' = count_map (dirtied_hashes (entries j') ++ ex ++ explicit_dirty ops).
Proof.
  induction ops as [|op ops IH]; intros j statedb ex j' statedb' Hd Hlen Hrun.
  - simpl in Hrun. injection Hrun as <- <-. by rewrite app_nil_r.
  - change (journal_run (op :: ops) (j, statedb)) with
      (journal_step (j, statedb) op ≫= journal_run ops) in Hrun.
    destruct (journal_step (j, statedb) op) as [[j1 statedb1]|] eqn:Hstep;
      simpl in Hrun; [|done].
    simpl in Hlen.
    destruct (journal_step_dirties _ _ _ _ _ _ Hd ltac:(lia) Hstep) as [Hd1 Hlen1].
    change (op :: ops) with ([op] ++ ops).
    unfold explicit_dirty. rewrite bind_app. fold (explicit_dirty [op]) (explicit_dirty ops).
    rewrite (app_assoc ex).
    eapply IH; [exact Hd1| |exact Hrun]. lia.
Qed.

(** C2, amended.  Start from a new journal and make fewer than 2^63 calls
    of [append], [revert] and [dirty].  Whenever the calls return, the dirty
    counts are the multiset of the non-nil [dirtied()] hashes of the current
    entries together with the hashes passed to [dirty]: a hash has no slot
    when it occurs in neither, and otherwise its slot holds the number of
    its occurrences.  Without calls of [dirty] the counts are the multiset
    of the [dirtied()] hashes of the current entries. *)
Theorem journal_dirties_invariant ops statedb j' statedb' :
  Z.of_nat (length ops) < 2 ^ 63 →
  journal_run ops (newJournal, statedb) = Done (j', statedb') →
  dirties j' = count_map (dirtied_hashes (entries j') ++ explicit_dirty ops) ∧
  (∀ h, dirties j' !! h =
        let n := occurrences h (dirtied_hashes (entries j') ++ explicit_dirty ops) in
        if decide (n = 0) then None else Some n) ∧
  (explicit_dirty ops = [] → dirties j' = dirties_multiset (entries j')).
Proof.
  intros Hlen Hrun.
  assert (dirties j' = count_map (dirtied_hashes (entries j') ++ explicit_dirty ops)) as Hd.
  { eapply (journal_run_dirties ops newJournal statedb []); [done| |exact Hrun].
    simpl. lia. }
  split; [exact Hd|]. split.
  - intros h. rewrite Hd. apply count_map_lookup.
  - intros Hex. rewrite Hd, Hex, app_nil_r. done.
Qed.
End JournalDirties.


Lemma journal_dirties_invariant_witness :
  let ops := sample_journal_ops ++ [OpDirty sample_hash] in
  let j := mkJournal (take 1 sample_entries)
             {[ @accountKeyHash sample_crypto addr1 := 1; sample_hash := 1 ]} in
  Z.of_nat (length ops) < 2 ^ 63 ∧
  @journal_run sample_crypto _ _ _ _ sample_methods ops (newJournal, sample_statedb) =
    Done (j, sample_statedb_after) ∧
  dirties j = count_map (@dirtied_hashes sample_crypto _ (entries j) ++ explicit_dirty ops).
Proof.
  intros ops j.
  assert (Z.of_nat (length ops) < 2 ^ 63) as Hlen by (vm_compute; reflexivity).
  assert (@journal_run sample_crypto _ _ _ _ sample_methods ops (newJournal, sample_statedb) =
          Done (j, sample_statedb_after)) as Hrun
    by (vm_cast_no_check (eq_refl (Done (j, sample_statedb_after)))).
  split; [exact Hlen|]. split; [exact Hrun|].
  exact (proj1 (@journal_dirties_invariant sample_crypto _ _ _ _ sample_methods
                  ops sample_statedb j sample_statedb_after Hlen Hrun)).
Defined.

(** C2 as stated fails: one call of [dirty] on a new journal leaves a count
    for a hash that no entry dirtied. *)
Lemma dirty_call_breaks_multiset_equality :
  ∃ j statedb,
    @journal_run sample_crypto _ _ _ _ sample_methods
      [OpDirty sample_hash] (newJournal, sample_statedb) = Done (j, statedb) ∧
    entries j = [] ∧
    dirties j !! sample_hash = Some 1 ∧
    dirties j ≠ @dirties_multiset sample_crypto _ (entries j).
Proof.
  exists (dirty newJournal sample_hash), sample_statedb.
  split; [reflexivity|]. split; [reflexivity|].
  split; [vm_compute; reflexivity|].
  intros Heq. apply (f_equal (λ m : gmap Hash Z, m !! sample_hash)) in Heq.
  vm_compute in Heq. discriminate Heq.
Defined.

(** * Further properties *)

(** ** Keys and stored values *)

Lemma bytes_value_app (l1 l2 : list byte) :
  bytes_value (l1 ++ l2) =
  fold_left (λ acc x, (acc * 256 + Byte.to_N x)%N) l2 (bytes_value l1).
Proof. unfold bytes_value. apply fold_left_app. Qed.

Lemma bytes_value_leading_zero (l : list byte) :
  bytes_value ("000"%byte :: l) = bytes_value l.
Proof. reflexivity. Qed.

Lemma byte_of_N_of_byte (x : byte) : byte_of_N (Byte.to_N x) = x.
Proof.
  unfold byte_of_N. pose proof (Byte.to_N_bounded x).
  rewrite N.mod_small by lia. by rewrite Byte.of_to_N.
Qed.

Lemma nat_bytes_zero (fuel : nat) (acc : list byte) : nat_bytes fuel 0 acc = acc.
Proof. by destruct fuel. Qed.

Lemma bytes_value_pos (l : list byte) :
  l ≠ [] → head l ≠ Some "000"%byte → (0 < bytes_value l)%N.
Proof.
  induction l as [|x l IH] using rev_ind; [done|].
  intros _ Hhead. rewrite bytes_value_snoc.
  destruct l as [|y l].
  - simpl in *. destruct (N.eq_dec (Byte.to_N x) 0%N) as [Hz|]; [|lia].
    exfalso. apply Hhead. f_equal.
    rewrite <- (byte_of_N_of_byte x), Hz. reflexivity.
  - assert (0 < bytes_value (y :: l))%N by (apply IH; done). lia.
Qed.

Lemma bytes_value_app_value (l1 l2 : list byte) :
  bytes_value (l1 ++ l2) =
  (bytes_value l1 * 256 ^ N.of_nat (length l2) + bytes_value l2)%N.
Proof.
  induction l2 as [|z l2 IH] using rev_ind.
  - rewrite app_nil_r. simpl. unfold bytes_value at 3. simpl. lia.
  - rewrite app_assoc, !bytes_value_snoc, IH, length_app. simpl.
    rewrite Nat.add_1_r, Nat2N.inj_succ, N.pow_succ_r'. lia.
Qed.

(** The bytes of the value of a byte string without leading zero byte are
    the byte string. *)
Lemma nat_bytes_bytes_value (l : list byte) : ∀ fuel,
  head l ≠ Some "000"%byte →
  (bytes_value l < 2 ^ N.of_nat fuel)%N →
  nat_bytes fuel (bytes_value l) [] = l.
Proof.
  induction l as [|x l IH] using rev_ind; intros fuel Hhead Hlt.
  - apply nat_bytes_zero.
  - rewrite bytes_value_snoc in *.
    pose proof (Byte.to_N_bounded x) as Hx.
    assert (head l ≠ Some "000"%byte) as Hhead' by (by destruct l).
    destruct fuel as [|fuel].
    { simpl in Hlt. assert (bytes_value l = 0%N ∧ Byte.to_N x = 0%N) as [Hl Hz] by lia.
      destruct l as [|y l].
      - exfalso. apply Hhead. simpl. f_equal.
        rewrite <- (byte_of_N_of_byte x), Hz. reflexivity.
      - pose proof (bytes_value_pos (y :: l) ltac:(done) Hhead'). lia. }
    simpl.
    destruct (N.eqb_spec (bytes_value l * 256 + Byte.to_N x) 0) as [Hz|Hnz].
    { destruct l as [|y l].
      - exfalso. apply Hhead. simpl. f_equal.
        rewrite <- (byte_of_N_of_byte x). replace (Byte.to_N x) with 0%N by lia.
        reflexivity.
      - pose proof (bytes_value_pos (y :: l) ltac:(done) Hhead'). lia. }
    rewrite nat_bytes_acc.
    replace ((bytes_value l * 256 + Byte.to_N x) / 256)%N with (bytes_value l)
      by (apply N.div_unique with (Byte.to_N x); lia).
    rewrite IH.
    + f_equal. f_equal. unfold byte_of_N.
      replace ((bytes_value l * 256 + Byte.to_N x) mod 256)%N with (Byte.to_N x)
        by (apply N.mod_unique with (bytes_value l); lia).
      by rewrite Byte.of_to_N.
    + done.
    + rewrite Nat2N.inj_succ, N.pow_succ_r' in Hlt. lia.
Qed.

Lemma big_Bytes_SetBytes (l : list byte) :
  head l ≠ Some "000"%byte → big_Bytes (big_SetBytes l) = l.
Proof.
  intros Hhead. unfold big_Bytes, big_SetBytes.
  rewrite Zabs2N.id. apply nat_bytes_bytes_value; [done|].
  rewrite N2Nat.id. apply N.size_gt.
Qed.

(** X1. A stored value is its type prefix followed by the encoded data: the
    prefix gives the type back and the rest is the data, for both state
    types; and [stateTypeFromPrefix] returns no type but these two, each for
    its own prefix only. *)
Theorem stored_value_type_roundtrip :
  (∀ v, (index0 (Value AccountState v) ≫= stateTypeFromPrefix) = Done AccountState ∧
        slice_from1 (Value AccountState v) = Done v) ∧
  (∀ v, (index0 (Value PodState v) ≫= stateTypeFromPrefix) = Done PodState ∧
        slice_from1 (Value PodState v) = Done v) ∧
  (∀ b st, stateTypeFromPrefix b = Done st →
           Prefix st = b ∧ (st = AccountState ∨ st = PodState)).
Proof.
  split; [done|]. split; [done|].
  intros b st. unfold stateTypeFromPrefix.
  destruct (decide (b = "a"%byte)) as [->|]; [intros [= <-]; auto|].
  destruct (decide (b = "p"%byte)) as [->|]; [intros [= <-]; auto|done].
Qed.

Lemma stored_value_type_roundtrip_witness :
  stateTypeFromPrefix "p"%byte = Done PodState ∧ Prefix PodState = "p"%byte.
Proof.
  split; [reflexivity|].
  apply (proj2 (proj2 stored_value_type_roundtrip) "p"%byte PodState). reflexivity.
Defined.

(** X2. Account keys and pod keys never coincide; [accountKey] is injective,
    [podKey] is injective on the non-negative block numbers, and it drops
    the sign: a negative block has the key of its absolute value. *)
Theorem keys_distinct_and_injective :
  (∀ a b k, podKey (Some b) = Done k → accountKey a ≠ k) ∧
  (∀ a1 a2, accountKey a1 = accountKey a2 → a1 = a2) ∧
  (∀ b1 b2, 0 ≤ b1 → 0 ≤ b2 → podKey (Some b1) = podKey (Some b2) → b1 = b2) ∧
  (∀ b, podKey (Some (- b)) = podKey (Some b)).
Proof.
  split; [|split; [|split]].
  - intros a b k [= <-]. discriminate.
  - intros a1 a2 [= Heq]. exact Heq.
  - intros b1 b2 H1 H2 [= Heq].
    rewrite <- (big_SetBytes_Bytes b1), <- (big_SetBytes_Bytes b2) by done.
    by rewrite Heq.
  - intros b. unfold podKey, bigInt_Bytes, big_Bytes. simpl.
    by rewrite Zabs2N.inj_opp.
Qed.

Lemma keys_distinct_and_injective_witness :
  accountKey addr1 ≠ "p"%byte :: big_Bytes 42 ∧
  podKey (Some (- 42)) = podKey (Some 42).
Proof.
  split.
  - apply (proj1 keys_distinct_and_injective addr1 42). reflexivity.
  - apply (proj2 (proj2 (proj2 keys_distinct_and_injective)) 42).
Defined.

(** X3. [keyToBlock] followed by [podKey] gives a pod key back when the bytes
    after the prefix have no leading zero byte.  A leading zero byte does not
    change the block read, so distinct keys can name one block; and the block
    read is never negative. *)
Theorem podKey_keyToBlock_canonical :
  (∀ bs, head bs ≠ Some "000"%byte →
         (keyToBlock ("p"%byte :: bs) ≫= λ b, podKey (Some b)) = Done ("p"%byte :: bs)) ∧
  (∀ x bs, keyToBlock (x :: "000"%byte :: bs) = keyToBlock (x :: bs)) ∧
  (∀ key b, keyToBlock key = Done b → 0 ≤ b).
Proof.
  split; [|split].
  - intros bs Hhead. unfold keyToBlock, podKey, PreKey. simpl.
    by rewrite big_Bytes_SetBytes.
  - done.
  - intros [|x key] b; [done|]. intros [= <-]. unfold big_SetBytes. lia.
Qed.

Lemma podKey_keyToBlock_canonical_witness :
  (keyToBlock ("p"%byte :: ["001"; "000"]%byte) ≫= λ b, podKey (Some b)) =
    Done ("p"%byte :: ["001"; "000"]%byte) ∧
  keyToBlock ("p"%byte :: ["000"; "001"; "000"]%byte) = Done 256.
Proof.
  split.
  - apply (proj1 podKey_keyToBlock_canonical). discriminate.
  - rewrite (proj1 (proj2 podKey_keyToBlock_canonical)). reflexivity.
Defined.

(** X4. The key decoders do not look at the prefix byte: whatever the first
    byte, [keyToAddress] returns the address that follows and [keyToBlock]
    the block that follows.  They panic on the empty key and on nothing
    else, and [keyToAddress] returns a 20-byte address for every other key. *)
Theorem key_decoders_ignore_prefix :
  (∀ x a, is_address a → keyToAddress (x :: a) = Done a) ∧
  (∀ x b, 0 ≤ b → keyToBlock (x :: big_Bytes b) = Done b) ∧
  keyToAddress [] = Panicked slice_out_of_range ∧
  keyToBlock [] = Panicked slice_out_of_range ∧
  (∀ key, key ≠ [] → ∃ a b, keyToAddress key = Done a ∧ is_address a ∧
                            keyToBlock key = Done b).
Proof.
  split; [|split; [|split; [done|split; [done|]]]].
  - intros x a Ha. unfold keyToAddress. simpl. by rewrite BytesToAddress_id.
  - intros x b Hb. unfold keyToBlock. simpl. by rewrite big_SetBytes_Bytes.
  - intros [|x key] Hne; [done|].
    exists (BytesToAddress key), (big_SetBytes key).
    split; [done|]. split; [apply BytesToAddress_is_address|done].
Qed.

Lemma key_decoders_ignore_prefix_witness :
  keyToAddress ("p"%byte :: addr1) = Done addr1 ∧
  keyToBlock ("a"%byte :: big_Bytes 42) = Done 42.
Proof.
  split.
  - apply (proj1 key_decoders_ignore_prefix). reflexivity.
  - apply (proj1 (proj2 key_decoders_ignore_prefix)). lia.
Defined.

(** ** Constructed pod objects *)

Section PodConstruction.
Context `{Crypto} {DB : Type}.

(** X5. A pod built by [newPodObject] is never [Empty], is neither executed nor
    deleted, has the pod type, and its stored key hash is the hash of its
    key. *)
Theorem newPodObject_not_empty (target : DB) (b : Z) (pod : StatePod) :
  ∃ o : podObject,
    newPodObject target (Some b) pod = Done o ∧
    podObject_Empty o = false ∧
    podObject_Suicided o = false ∧
    podObject_Deleted o = false ∧
    podObject_Type o = PodState ∧
    (podObject_Key o ≫= λ k, Done (Keccak256Hash k)) = Done (podObject_KeyHash o).
Proof.
  eexists. split; [apply newPodObject_Done|].
  unfold podObject_Empty. simpl. repeat split.
Qed.

(** X6. The default gas limit is applied once: building a pod from the data of a
    built pod gives that pod again. *)
Theorem newPodObject_idempotent (target : DB) (b : Z) (pod : StatePod) (o : podObject) :
  newPodObject target (Some b) pod = Done o →
  newPodObject target (Some b) (data o) = Done o.
Proof.
  rewrite !newPodObject_Done. intros [= <-]. simpl.
  destruct (decide (GasLimit pod = 0)) as [Hz|Hnz]; simpl; [done|].
  by rewrite (decide_False (P := GasLimit pod = 0)).
Qed.
End PodConstruction.

Lemma newPodObject_idempotent_witness :
  let o := mkPodObject (Some 42) (@Keccak256Hash sample_crypto ("p"%byte :: big_Bytes 42))
             (mkStatePod 1000000 0 []) tt None false false in
  @newPodObject sample_crypto unit tt (Some 42) (mkStatePod 0 0 []) = Done o ∧
  @newPodObject sample_crypto unit tt (Some 42) (data o) = Done o.
Proof.
  intros o.
  assert (@newPodObject sample_crypto unit tt (Some 42) (mkStatePod 0 0 []) = Done o) as Ho
    by reflexivity.
  split; [exact Ho|].
  exact (@newPodObject_idempotent sample_crypto unit tt 42 (mkStatePod 0 0 []) o Ho).
Defined.

(** ** The slim pod, whatever the range variable *)

Section SlimPodShape.
Context `{GoLanguage} `{snapshot.PodCodec}.

(** X7. Whatever way the range variable is declared, [SlimPod] keeps both gas
    limits and the number of passengers, every passenger of the result is
    one of the input passengers, and the last one is the last input
    passenger. *)
Theorem SlimPod_shape (g c : Z) (ps : list Address) :
  snapshot.GasLimit (snapshot.SlimPod g c ps) = g ∧
  snapshot.CurrentGasLimit (snapshot.SlimPod g c ps) = c ∧
  length (snapshot.Passengers (snapshot.SlimPod g c ps)) = length ps ∧
  Forall (λ p, p ∈ ps) (snapshot.Passengers (snapshot.SlimPod g c ps)) ∧
  last (snapshot.Passengers (snapshot.SlimPod g c ps)) = last ps.
Proof.
  destruct range_variable eqn:Hvar.
  - destruct ps as [|a ps _] using rev_ind.
    + unfold snapshot.SlimPod. simpl. repeat split. constructor.
    + rewrite (SlimPod_per_loop Hvar). simpl.
      rewrite length_replicate, length_app. simpl. repeat split.
      * lia.
      * change (a :: replicate (length ps) a) with (replicate (S (length ps)) a).
        apply Forall_replicate. apply elem_of_app. right. by left.
      * rewrite last_snoc.
        change (a :: replicate (length ps) a) with (replicate (S (length ps)) a).
        rewrite replicate_S_end. by rewrite last_snoc.
  - rewrite (SlimPod_per_iteration Hvar). simpl. repeat split.
    apply Forall_forall. auto.
Qed.

(** X8. With at most one passenger the slim pod round-trips whatever the range
    variable, for a codec that decodes what it encoded. *)
Theorem SlimPod_roundtrip_short (g c : Z) (ps : list Address) (data : list byte) :
  (length ps ≤ 1)%nat → Forall is_address ps →
  snapshot.EncodeToBytes (snapshot.mkPod g c ps) = Ok data →
  snapshot.DecodeBytes data = Ok (snapshot.mkPod g c ps) →
  snapshot.SlimPodRLP g c ps = Done data ∧
  snapshot.FullStatePod data = Ok (mkStatePod g c ps).
Proof.
  intros Hlen Hps Henc Hdec.
  assert (snapshot.SlimPod g c ps = snapshot.mkPod g c ps) as Hslim.
  { destruct ps as [|a [|b ps]]; [done| |simpl in Hlen; lia].
    unfold snapshot.SlimPod. simpl. unfold snapshot.read_slice.
    unfold snapshot.arrays, snapshot.loc.
    by destruct range_variable; rewrite lookup_insert_eq. }
  split.
  - unfold snapshot.SlimPodRLP. by rewrite Hslim, Henc.
  - unfold snapshot.FullStatePod, snapshot.FullPod. rewrite Hdec. simpl.
    rewrite fold_addresses. simpl. by rewrite BytesToAddress_fmap_id.
Qed.

(** X9. [FullStatePod] returns the error of the decoder and no other; on a
    decoded pod it keeps the gas limits and the number of passengers and
    makes every passenger a 20-byte address, whatever the length of the
    decoded byte string.  [FullPodRLP] encodes the decoded pod again, so it
    gives back the bytes of a pod that encodes to them. *)
Theorem FullStatePod_total (data : list byte) :
  (∀ e, snapshot.DecodeBytes data = Err e →
        snapshot.FullPod data = Err e ∧ snapshot.FullPodRLP data = Err e ∧
        snapshot.FullStatePod data = Err e) ∧
  (∀ pod, snapshot.DecodeBytes data = Ok pod →
        snapshot.FullPodRLP data = snapshot.EncodeToBytes pod ∧
        ∃ sp, snapshot.FullStatePod data = Ok sp ∧
              GasLimit sp = snapshot.GasLimit pod ∧
              CurrentGasLimit sp = snapshot.CurrentGasLimit pod ∧
              length (Passengers sp) = length (snapshot.Passengers pod) ∧
              Forall is_address (Passengers sp) ∧
              (Forall is_address (snapshot.Passengers pod) →
               Passengers sp = snapshot.Passengers pod)).
Proof.
  split.
  - intros e He. unfold snapshot.FullPodRLP, snapshot.FullStatePod, snapshot.FullPod.
    by rewrite He.
  - intros pod Hpod.
    unfold snapshot.FullPodRLP, snapshot.FullStatePod, snapshot.FullPod.
    rewrite Hpod. split; [done|]. eexists. split; [done|]. simpl.
    rewrite fold_addresses. simpl. rewrite length_fmap. repeat split.
    + apply Forall_fmap, Forall_forall. intros p _. apply BytesToAddress_is_address.
    + apply BytesToAddress_fmap_id.
Qed.
End SlimPodShape.

Lemma SlimPod_roundtrip_short_witness :
  ∃ data,
    @snapshot.SlimPodRLP go_before_1_22 rlp_pod_codec 1000000 7 [addr1] = Done data ∧
    @snapshot.FullStatePod rlp_pod_codec data = Ok (mkStatePod 1000000 7 [addr1]).
Proof.
  eexists.
  apply (@SlimPod_roundtrip_short go_before_1_22 rlp_pod_codec 1000000 7 [addr1]);
    [simpl; lia | repeat constructor | vm_compute; reflexivity | vm_compute; reflexivity].
Defined.

Lemma FullStatePod_total_witness :
  @snapshot.FullStatePod rlp_pod_codec [] = Err "EOF" ∧
  @snapshot.FullStatePod rlp_pod_codec
    (rlp_list (rlp_uint 5 ++ rlp_uint 0 ++ rlp_list (rlp_string ["001"%byte]))) =
  Ok (mkStatePod 5 0 [addr1]).
Proof.
  split.
  - apply (proj1 (@FullStatePod_total rlp_pod_codec []) "EOF"). reflexivity.
  - destruct (proj2 (@FullStatePod_total rlp_pod_codec
                (rlp_list (rlp_uint 5 ++ rlp_uint 0 ++ rlp_list (rlp_string ["001"%byte]))))
                (snapshot.mkPod 5 0 [["001"%byte]]))
      as (_ & sp & Hsp & _); [vm_compute; reflexivity|].
    rewrite Hsp. vm_compute in Hsp. injection Hsp as <-. reflexivity.
Defined.

(** ** More on the journal *)

Section JournalFurther.
Context `{Crypto}.
Context {stateObject Log AccessList Backing : Type}.
Context `{!@StateDBMethods stateObject Log AccessList Backing}.

Implicit Types (es : list (@journalEntry stateObject)) (d : gmap Hash Z).
Implicit Types (statedb : @StateDB stateObject Log AccessList Backing).
Implicit Types (j : @journal stateObject).
Implicit Types (ops : list (@journal_op stateObject)).

(** X10. Reverting to the current length changes nothing, and reverting to a
    checkpoint a second time changes nothing more. *)
Theorem revert_same_checkpoint j statedb (k : Z) :
  revert j statedb (journal_length j) = Done (j, statedb) ∧
  (0 ≤ k ≤ journal_length j →
   (revert j statedb k ≫= λ r, revert r.1 r.2 k) = revert j statedb k).
Proof.
  split.
  - rewrite revert_in_range by (unfold journal_length; lia). unfold journal_length.
    rewrite Nat2Z.id, drop_all, firstn_all. simpl. by destruct j.
  - intros Hk. pose proof Hk as Hk'. unfold journal_length in Hk'.
    rewrite revert_in_range by done.
    destruct (undo_entries _ _ _) as [[d statedb']|]; simpl; [|done].
    rewrite revert_in_range by (unfold journal_length; simpl; rewrite length_take; lia).
    simpl. rewrite drop_ge by (rewrite length_take; lia). simpl.
    rewrite take_take. by rewrite Nat.min_id.
Qed.

(** X11. A negative checkpoint makes [revert] panic, on every journal. *)
Theorem revert_negative_panics j statedb (k : Z) :
  k < 0 → ∃ msg, revert j statedb k = Panicked msg.
Proof.
  intros Hk. rewrite revert_negative by done.
  destruct (undo_entries _ _ _) as [[d statedb']|msg]; simpl; eauto.
Qed.

Lemma dirties_decr_incr (h : Hash) d :
  (∀ v, d !! h = Some v → 0 < v < 2 ^ 63 - 1) →
  dirties_decr h (dirties_incr h d) = d.
Proof.
  intros Hd. unfold dirties_decr, dirties_incr.
  rewrite !lookup_insert_eq, insert_insert_eq.
  destruct (d !! h) as [v|] eqn:Hv; cbn [default from_option id].
  - specialize (Hd v eq_refl).
    rewrite (wrap_int_small (v + 1)) by lia.
    replace (v + 1 - 1) with v by lia.
    rewrite wrap_int_small by lia.
    rewrite decide_False by lia. by apply insert_id.
  - change (wrap_int (wrap_int (0 + 1) - 1)) with 0.
    rewrite decide_True by done. rewrite delete_insert_eq. by apply delete_id.
Qed.

(** X12. Appending an entry and reverting to the length before it undoes the
    append: the journal is the one before, and the database is the one the
    entry's own [revert] gives.  The counts are taken between 1 and the
    largest [int] less one, as the journal keeps them. *)
Theorem append_then_revert j (e : @journalEntry stateObject) j' statedb :
  (∀ h v, dirties j !! h = Some v → 0 < v < 2 ^ 63 - 1) →
  append j e = Done j' →
  revert j' statedb (journal_length j) =
  entry_revert e statedb ≫= λ statedb', Done (j, statedb').
Proof.
  intros Hd Happ. unfold append in Happ.
  destruct (dirtied e) as [keyHash|] eqn:He; simpl in Happ; [|done].
  assert (entries j' = entries j ++ [e]) as Hes by (by destruct keyHash; injection Happ as <-).
  unfold journal_length.
  rewrite revert_in_range by (unfold journal_length; rewrite Hes, length_app; simpl; lia).
  rewrite Nat2Z.id, Hes, drop_app_length, take_app_length. simpl.
  destruct (entry_revert e statedb) as [statedb'|]; simpl; [|done].
  rewrite He. simpl. destruct j as [es d]. simpl in *.
  destruct keyHash as [h|]; injection Happ as <-; simpl; [|done].
  rewrite dirties_decr_incr; [done|]. intros v. apply Hd.
Qed.



End JournalFurther.

Lemma revert_same_checkpoint_witness :
  @revert sample_crypto _ _ _ _ sample_methods sample_journal sample_statedb 4 =
    Done (sample_journal, sample_statedb) ∧
  (@revert sample_crypto _ _ _ _ sample_methods sample_journal sample_statedb 1 ≫= λ r,
     @revert sample_crypto _ _ _ _ sample_methods r.1 r.2 1) =
  @revert sample_crypto _ _ _ _ sample_methods sample_journal sample_statedb 1.
Proof.
  split.
  - exact (proj1 (@revert_same_checkpoint sample_crypto _ _ _ _ sample_methods
                    sample_journal sample_statedb 0)).
  - apply (proj2 (@revert_same_checkpoint sample_crypto _ _ _ _ sample_methods
                    sample_journal sample_statedb 1)).
    unfold journal_length. simpl. lia.
Defined.

Lemma revert_negative_panics_witness :
  ∃ msg, @revert sample_crypto _ _ _ _ sample_methods sample_journal sample_statedb (-1) =
         Panicked msg.
Proof.
  apply (@revert_negative_panics sample_crypto _ _ _ _ sample_methods). lia.
Defined.

Lemma append_then_revert_witness :
  let e := @balanceChange Address (Some addr1) (Some 0) in
  let j' := mkJournal [e] (dirties_incr (@accountKeyHash sample_crypto addr1) ∅) in
  @append sample_crypto _ newJournal e = Done j' ∧
  @revert sample_crypto _ _ _ _ sample_methods j' sample_statedb 0 =
  @entry_revert _ _ _ _ sample_methods e sample_statedb ≫= λ statedb', Done (newJournal, statedb').
Proof.
  intros e j'.
  assert (@append sample_crypto _ newJournal e = Done j') as Happ by reflexivity.
  split; [exact Happ|].
  apply (@append_then_revert sample_crypto _ _ _ _ sample_methods newJournal e j'
           sample_statedb); [|exact Happ].
  intros h v Hv. vm_compute in Hv. discriminate Hv.
Defined.



(** ** Journal entries *)

Section EntryProperties.
Context `{Crypto}.
Context {stateObject Log AccessList Backing : Type}.
Context `{!@StateDBMethods stateObject Log AccessList Backing}.

Implicit Types (statedb : @StateDB stateObject Log AccessList Backing).

(** X15. What a creation entry reports as dirtied.  For an account key it is the
    key hash of the account.  For a pod key the block is read one byte too
    far into the key: the first byte after the prefix is dropped, so the
    entry reports the key hash of the block made of the remaining bytes, and
    for the key of block 0, which has no byte after the prefix, it panics.
    An empty key and a key with another prefix panic as well. *)
Theorem createObjectChange_dirtied :
  (∀ a, is_address a →
     dirtied (@createObjectChange stateObject (accountKey a)) =
     Done (Some (accountKeyHash a))) ∧
  (∀ x bs,
     dirtied (@createObjectChange stateObject ("p"%byte :: x :: bs)) =
     Done (Some (Keccak256Hash ("p"%byte :: big_Bytes (big_SetBytes bs))))) ∧
  (∀ b k, 0 < b < 256 → podKey (Some b) = Done k →
     dirtied (@createObjectChange stateObject k) = (h ← podKeyHash (Some 0); Done (Some h))) ∧
  (∀ k, podKey (Some 0) = Done k →
     dirtied (@createObjectChange stateObject k) = Panicked slice_out_of_range) ∧
  dirtied (@createObjectChange stateObject []) = Panicked index_out_of_range ∧
  (∀ x key, x ≠ "a"%byte → x ≠ "p"%byte →
     dirtied (@createObjectChange stateObject (x :: key)) = Panicked "unknown state type").
Proof.
  split; [|split; [|split; [|split; [|split]]]].
  - intros a Ha. simpl. unfold accountKeyHash, accountKey, PreKey, Address_Bytes.
    by rewrite BytesToAddress_id.
  - done.
  - intros b k Hb [= <-].
    assert (∃ x, big_Bytes b = [x]) as [x Hx].
    { pose proof (big_SetBytes_Bytes b ltac:(lia)) as Hv.
      pose proof (big_Bytes_minimal b) as Hmin.
      destruct (big_Bytes b) as [|x [|y l]] eqn:Hbytes.
      - unfold big_SetBytes in Hv. simpl in Hv. lia.
      - eauto.
      - exfalso. unfold big_SetBytes in Hv.
        change (x :: y :: l) with ([x] ++ y :: l) in Hv.
        rewrite bytes_value_app_value in Hv.
        pose proof (bytes_value_pos [x] ltac:(done) Hmin) as Hpos.
        simpl length in Hv. rewrite Nat2N.inj_succ, N.pow_succ_r' in Hv.
        assert (1 ≤ 256 ^ N.of_nat (length l))%N by (apply N.neq_0_le_1, N.pow_nonzero; lia).
        nia. }
    unfold PreKey. rewrite Hx. reflexivity.
  - intros k [= <-]. reflexivity.
  - done.
  - intros x key Ha Hp. simpl. unfold stateTypeFromPrefix.
    by rewrite !decide_False.
Qed.

(** X16. Undoing an added log.  When the transaction has logs, the last one is
    dropped, the slot is removed if that was the only one, the logs of other
    transactions stay, and the log counter goes down by one, wrapping at
    zero.  When the transaction has no log the entry panics. *)
Theorem addLogChange_revert statedb (txhash : Hash) :
  (∀ l x, logs statedb !! txhash = Some (l ++ [x]) →
     ∃ statedb', entry_revert (addLogChange txhash) statedb = Done statedb' ∧
       logs statedb' !! txhash = (if decide (l = []) then None else Some l) ∧
       (∀ tx, tx ≠ txhash → logs statedb' !! tx = logs statedb !! tx) ∧
       logSize statedb' = (logSize statedb - 1) mod 2 ^ 64 ∧
       stateObjects statedb' = stateObjects statedb ∧
       refund statedb' = refund statedb ∧
       preimages statedb' = preimages statedb) ∧
  (logs statedb !! txhash = None ∨ logs statedb !! txhash = Some [] →
     entry_revert (addLogChange txhash) statedb = Panicked slice_out_of_range).
Proof.
  split.
  - intros l x Hl. simpl. rewrite Hl. simpl.
    destruct l as [|y l].
    + simpl. eexists. split; [done|]. simpl.
      rewrite lookup_delete_eq. repeat split.
      intros tx Htx. by rewrite lookup_delete_ne.
    + rewrite decide_False by (simpl; rewrite length_app; simpl; lia).
      simpl. destruct (l ++ [x]) as [|z l'] eqn:Hlx; [by destruct l|].
      rewrite <- Hlx. eexists. split; [done|]. simpl.
      rewrite lookup_insert_eq.
      change (removelast (y :: l ++ [x])) with (removelast ((y :: l) ++ [x])).
      rewrite removelast_last. repeat split.
      intros tx Htx. by rewrite lookup_insert_ne.
  - intros [Hl|Hl]; simpl; rewrite Hl; reflexivity.
Qed.
End EntryProperties.

Lemma createObjectChange_dirtied_witness :
  @dirtied sample_crypto Address (createObjectChange (accountKey addr1)) =
    Done (Some (@accountKeyHash sample_crypto addr1)) ∧
  @dirtied sample_crypto Address (createObjectChange ("p"%byte :: big_Bytes 42)) =
    Done (Some (@Keccak256Hash sample_crypto ["p"%byte])) ∧
  @dirtied sample_crypto Address (createObjectChange ["p"%byte]) =
    Panicked slice_out_of_range.
Proof.
  split; [|split].
  - apply (proj1 (@createObjectChange_dirtied sample_crypto Address)). reflexivity.
  - apply (proj1 (proj2 (proj2 (@createObjectChange_dirtied sample_crypto Address))) 42);
      [lia | reflexivity].
  - apply (proj1 (proj2 (proj2 (proj2 (@createObjectChange_dirtied sample_crypto Address))))).
    reflexivity.
Defined.

Lemma addLogChange_revert_witness :
  ∃ statedb',
    @entry_revert _ _ _ _ sample_methods (addLogChange sample_hash) sample_statedb_logs =
      Done statedb' ∧
    logs statedb' !! sample_hash = Some [()] ∧
    logSize statedb' = 1.
Proof.
  destruct (proj1 (@addLogChange_revert _ _ _ _ sample_methods sample_statedb_logs sample_hash)
              [()] ()) as (statedb' & Hrev & Hlogs & _ & Hsize & _);
    [vm_compute; reflexivity|].
  exists statedb'. split; [exact Hrev|]. split; [exact Hlogs | exact Hsize].
Defined.

(** ** More on the dump *)

Section DumpFurther.
Context {S : Type} `{DumpEnv S}.

Implicit Types (st : @dump_state (list dump_line)) (leaves : list (list byte * list byte)).

Lemma dump_account_ok (s : S) (conf : DumpConfig) key v st :
  account_leaf s conf (key, "a"%byte :: v) →
  ∃ st1, dump_account s conf key v st = Done (AfterSwitch st1) ∧
         accounts st1 = wrap_uint64 (accounts st + 1) ∧
         pods st1 = pods st ∧
         missingPreimages st1 = missingPreimages st ∧
         nextKey st1 = nextKey st ∧
         length (collector st1) = Datatypes.S (length (collector st)).
Proof.
  intros (v' & data & pre & [= <-] & Hdec & Hkey & Hpre & Hcode & Hstorage).
  simpl in Hkey. unfold dump_account. rewrite Hdec, Hkey. simpl.
  destruct pre as [|p pre]; [done|]. simpl in *.
  destruct (SkipCode conf); simpl.
  - destruct (SkipStorage conf); simpl.
    + eexists. split; [done|]. simpl. unfold iterativeDump_OnAccount.
      rewrite length_app. simpl. repeat split. lia.
    + destruct (Hstorage eq_refl) as [l ->]. simpl.
      eexists. split; [done|]. simpl. unfold iterativeDump_OnAccount.
      rewrite length_app. simpl. repeat split. lia.
  - destruct (Hcode eq_refl) as [code ->]. simpl.
    destruct (SkipStorage conf); simpl.
    + eexists. split; [done|]. simpl. unfold iterativeDump_OnAccount.
      rewrite length_app. simpl. repeat split. lia.
    + destruct (Hstorage eq_refl) as [l ->]. simpl.
      eexists. split; [done|]. simpl. unfold iterativeDump_OnAccount.
      rewrite length_app. simpl. repeat split. lia.
Qed.

Lemma dump_pod_ok (s : S) (conf : DumpConfig) key v st :
  pod_leaf s (key, "p"%byte :: v) →
  ∃ st1, dump_pod s conf key v st = Done (AfterSwitch st1) ∧
         accounts st1 = accounts st ∧
         pods st1 = wrap_uint64 (pods st + 1) ∧
         missingPreimages st1 = missingPreimages st ∧
         nextKey st1 = nextKey st ∧
         length (collector st1) = Datatypes.S (length (collector st)).
Proof.
  intros (v' & data & pre & [= <-] & Hdec & Hkey & Hpre).
  simpl in Hkey. unfold dump_pod. rewrite Hdec, Hkey. simpl.
  destruct pre as [|p pre]; [done|]. simpl.
  eexists. split; [done|]. simpl. unfold iterativeDump_OnPod.
  rewrite length_app. simpl. repeat split. lia.
Qed.

Lemma dump_loop_accounts (s : S) (conf : DumpConfig) leaves :
  Forall (account_leaf s conf) leaves → Max conf < 2 ^ 64 →
  ∀ st, 0 ≤ accounts st < Max conf → nextKey st = None →
    ∃ st', dump_loop s conf leaves st = Done st' ∧
           accounts st' = Z.min (Max conf) (accounts st + Z.of_nat (length leaves)) ∧
           nextKey st' = fst <$> leaves !! Z.to_nat (Max conf - accounts st) ∧
           pods st' = pods st ∧
           missingPreimages st' = missingPreimages st ∧
           length (collector st') =
             (length (collector st) +
              Z.to_nat (Z.min (Max conf - accounts st) (Z.of_nat (length leaves))))%nat.
Proof.
  intros Hleaves Hmax.
  induction Hleaves as [|[key value] leaves Hleaf _ IH]; intros st Hacc Hnext.
  - exists st. simpl. rewrite Hnext. repeat split; lia.
  - pose proof Hleaf as (v & _ & _ & Hv & _). simpl in Hv. subst value.
    destruct (dump_account_ok s conf key v st Hleaf)
      as (st1 & Hitem & Hacc1 & Hpods1 & Hmiss1 & Hnext1 & Hlen1).
    unfold wrap_uint64 in Hacc1. rewrite Z.mod_small in Hacc1 by lia.
    simpl. rewrite Hitem. simpl.
    destruct (decide (Max conf > 0 ∧ accounts st1 >= Max conf)) as [[_ Hfull]|Hnot].
    + eexists. split; [done|]. simpl.
      assert (accounts st1 = Max conf) as Heq by lia.
      replace (Z.to_nat (Max conf - accounts st)) with 1%nat by lia.
      rewrite Hlen1. repeat split; try done; try lia.
      destruct leaves as [|[key' value'] leaves]; simpl; [by rewrite Hnext1, Hnext|done].
    + destruct (IH st1 ltac:(lia) ltac:(congruence))
        as (st' & Hrun & Hacc' & Hnext' & Hpods' & Hmiss' & Hlen').
      exists st'. split; [exact Hrun|].
      rewrite Hacc', Hnext', Hpods', Hmiss', Hlen', Hacc1, Hlen1.
      replace (Z.to_nat (Max conf - accounts st))
        with (Datatypes.S (Z.to_nat (Max conf - (accounts st + 1)))) by lia.
      simpl length. repeat split; try done; lia.
Qed.

(** X17. Pagination over accounts.  When every leaf is a readable account and
    [Max] is positive, [DumpToCollector] writes the root and then the first
    [Max] accounts, or all of them when there are fewer, and returns the key
    of the leaf that follows the last account written, nil when none does. *)
Theorem dump_accounts_paginate (s : S) (out : list dump_line) (conf : DumpConfig) :
  Forall (account_leaf s conf) (trie_leaves s (Start conf)) →
  0 < Max conf < 2 ^ 64 →
  ∃ st, DumpToCollector s out (Some conf) = Done st ∧
        accounts st = Z.min (Max conf) (Z.of_nat (length (trie_leaves s (Start conf)))) ∧
        nextKey st = fst <$> trie_leaves s (Start conf) !! Z.to_nat (Max conf) ∧
        pods st = 0 ∧ missingPreimages st = 0 ∧
        length (collector st) =
          (length out + 1 +
           Z.to_nat (Z.min (Max conf) (Z.of_nat (length (trie_leaves s (Start conf))))))%nat.
Proof.
  intros Hleaves Hmax. unfold DumpToCollector. simpl.
  edestruct (dump_loop_accounts s conf _ Hleaves ltac:(lia))
    as (st & Hrun & Hacc & Hnext & Hpods & Hmiss & Hlen);
    [| |exists st; split; [exact Hrun|]].
  - simpl. lia.
  - done.
  - simpl in *. rewrite Z.sub_0_r in *. rewrite Hlen.
    unfold iterativeDump_OnRoot. rewrite length_app. simpl. repeat split; try done; lia.
Qed.

(** X18. A dump without limit.  When every leaf is a readable account or pod and
    [Max] is 0, [DumpToCollector] returns, writes the root and one line for
    every leaf, counts no missing preimage and returns no continuation
    key. *)
Theorem dump_all_leaves (s : S) (out : list dump_line) (conf : DumpConfig) :
  Forall (λ kv, account_leaf s conf kv ∨ pod_leaf s kv) (trie_leaves s (Start conf)) →
  Max conf = 0 →
  Z.of_nat (length (trie_leaves s (Start conf))) < 2 ^ 64 →
  ∃ st, DumpToCollector s out (Some conf) = Done st ∧
        accounts st + pods st = Z.of_nat (length (trie_leaves s (Start conf))) ∧
        nextKey st = None ∧ missingPreimages st = 0 ∧
        length (collector st) =
          (length out + 1 + length (trie_leaves s (Start conf)))%nat.
Proof.
  intros Hleaves Hmax Hlen. unfold DumpToCollector. simpl.
  enough (∀ leaves st,
    Forall (λ kv, account_leaf s conf kv ∨ pod_leaf s kv) leaves →
    0 ≤ accounts st → 0 ≤ pods st →
    accounts st + pods st + Z.of_nat (length leaves) < 2 ^ 64 →
    ∃ st', dump_loop s conf leaves st = Done st' ∧
           0 ≤ accounts st' ∧ 0 ≤ pods st' ∧
           accounts st' + pods st' = accounts st + pods st + Z.of_nat (length leaves) ∧
           nextKey st' = nextKey st ∧ missingPreimages st' = missingPreimages st ∧
           length (collector st') = (length (collector st) + length leaves)%nat) as Hloop.
  { edestruct (Hloop _ (mkDumpState (OnRoot (trie_Hash s) out) 0 0 0 None) Hleaves)
      as (st & Hrun & _ & _ & Hsum & Hnext & Hmiss & Hl); simpl; try lia.
    exists st. split; [exact Hrun|]. simpl in *.
    rewrite Hl. unfold iterativeDump_OnRoot. rewrite length_app. simpl.
    repeat split; try done; lia. }
  clear Hleaves Hlen out.
  intros leaves st Hleaves. revert st.
  induction Hleaves as [|[key value] leaves Hleaf _ IH]; intros st Ha Hp Hsum.
  - exists st. simpl. repeat split; lia.
  - simpl length in Hsum.
    assert (∃ v st1, dump_loop s conf ((key, value) :: leaves) st = dump_loop s conf leaves st1 ∧
              0 ≤ accounts st1 ∧ 0 ≤ pods st1 ∧
              accounts st1 + pods st1 = accounts st + pods st + 1 ∧
              nextKey st1 = nextKey st ∧ missingPreimages st1 = missingPreimages st ∧
              length (collector st1) = Datatypes.S (length (collector st)) ∧ v = value)
      as (v & st1 & Hstep & Ha1 & Hp1 & Hsum1 & Hnext1 & Hmiss1 & Hlen1 & _).
    { destruct Hleaf as [Hleaf|Hleaf].
      - pose proof Hleaf as (v & _ & _ & Hv & _). simpl in Hv. subst value.
        destruct (dump_account_ok s conf key v st Hleaf)
          as (st1 & Hitem & Hacc1 & Hpods1 & Hmiss1 & Hnext1 & Hlen1).
        unfold wrap_uint64 in Hacc1. rewrite Z.mod_small in Hacc1 by lia.
        exists ("a"%byte :: v), st1. simpl. rewrite Hitem. simpl.
        rewrite decide_False by lia. repeat split; try done; lia.
      - pose proof Hleaf as (v & _ & _ & Hv & _). simpl in Hv. subst value.
        destruct (dump_pod_ok s conf key v st Hleaf)
          as (st1 & Hitem & Hacc1 & Hpods1 & Hmiss1 & Hnext1 & Hlen1).
        unfold wrap_uint64 in Hpods1. rewrite Z.mod_small in Hpods1 by lia.
        exists ("p"%byte :: v), st1. simpl. rewrite Hitem. simpl.
        rewrite decide_False by lia. repeat split; try done; lia. }
    destruct (IH st1 Ha1 Hp1 ltac:(lia)) as (st' & Hrun & Ha' & Hp' & Hsum' & Hnext' & Hmiss' & Hlen').
    exists st'. rewrite Hstep. split; [exact Hrun|].
    simpl length. repeat split; try congruence; lia.
Qed.
End DumpFurther.

Section DumpEdges.
Context {S C : Type} `{DumpEnv S} `{DumpCollector C}.

Lemma dump_loop_skipped_accounts (s : S) (conf : DumpConfig)
    (leaves : list (list byte * list byte)) :
  OnlyWithAddresses conf = true →
  Forall (account_leaf_without_preimage s) leaves →
  ∀ st : @dump_state C,
    0 ≤ missingPreimages st →
    missingPreimages st + Z.of_nat (length leaves) < 2 ^ 63 →
    dump_loop s conf leaves st =
    Done (mkDumpState (collector st) (missingPreimages st + Z.of_nat (length leaves))
            (accounts st) (pods st) (nextKey st)).
Proof.
  intros Honly Hleaves.
  induction Hleaves as [|[key value] leaves (v & data & Hv & Hdec & Hkey) _ IH];
    intros st Hmiss Hlen.
  - simpl. rewrite Z.add_0_r. by destruct st.
  - simpl in Hv, Hkey. subst value. simpl length in Hlen.
    erewrite dump_loop_account_missing by done. rewrite Honly.
    rewrite IH; unfold count_missing; simpl;
      rewrite ?wrap_int_small by lia; try lia.
    f_equal. f_equal. lia.
Qed.

(** X19. Accounts without key preimage under [OnlyWithAddresses].  When every
    leaf is a decodable account whose key has no preimage, the dump calls the
    collector for the root only, counts every leaf as missing, and goes to
    the end of the trie whatever [Max] is: it returns no continuation key. *)
Theorem dump_skips_accounts_without_preimage (s : S) (c : C) (conf : DumpConfig) :
  OnlyWithAddresses conf = true →
  Forall (account_leaf_without_preimage s) (trie_leaves s (Start conf)) →
  Z.of_nat (length (trie_leaves s (Start conf))) < 2 ^ 63 →
  DumpToCollector s c (Some conf) =
  Done (mkDumpState (OnRoot (trie_Hash s) c)
          (Z.of_nat (length (trie_leaves s (Start conf)))) 0 0 None).
Proof.
  intros Honly Hleaves Hlen. unfold DumpToCollector. simpl.
  rewrite (dump_loop_skipped_accounts s conf _ Honly Hleaves); simpl; [done|lia|lia].
Qed.

(** X20. A malformed first leaf stops the dump with a panic: an empty value with
    the index panic, a value with an unknown prefix with the panic of
    [stateTypeFromPrefix], a value that does not decode with the error of the
    decoder. *)
Theorem dump_malformed_leaf (s : S) (c : C) (conf : DumpConfig) key value rest :
  trie_leaves s (Start conf) = (key, value) :: rest →
  (value = [] → DumpToCollector s c (Some conf) = Panicked index_out_of_range) ∧
  (∀ x v, value = x :: v → x ≠ "a"%byte → x ≠ "p"%byte →
     DumpToCollector s c (Some conf) = Panicked "unknown state type") ∧
  (∀ v e, value = "a"%byte :: v → DecodeAccount v = Err e →
     DumpToCollector s c (Some conf) = Panicked e) ∧
  (∀ v e, value = "p"%byte :: v → DecodePod v = Err e →
     DumpToCollector s c (Some conf) = Panicked e).
Proof.
  intros Hleaves. unfold DumpToCollector. simpl. rewrite Hleaves.
  split; [|split; [|split]].
  - by intros ->.
  - intros x v -> Ha Hp. simpl. unfold stateTypeFromPrefix. by rewrite !decide_False.
  - intros v e -> He. simpl. unfold dump_account. by rewrite He.
  - intros v e -> He. simpl. unfold dump_pod. by rewrite He.
Qed.

(** X21. Storage slots of a dumped account.  A leaf whose value does not split is
    left out.  A slot whose key has no preimage is filed under the all-zero
    hash, so such slots overwrite one another and never touch another
    slot. *)
Theorem dump_storage_missing_preimages (s : S) (leaves : list (list byte * list byte))
    (storage : gmap Hash string) :
  (∀ key value e, rlp_Split_content value = Err e →
     dump_storage s ((key, value) :: leaves) storage = dump_storage s leaves storage) ∧
  (Forall (λ kv, trie_GetKey s kv.1 = None) leaves →
   ∀ h, h ≠ BytesToHash [] → dump_storage s leaves storage !! h = storage !! h).
Proof.
  split.
  - intros key value e He. simpl. by rewrite He.
  - intros Hleaves. revert storage.
    induction Hleaves as [|[key value] leaves Hkey _ IH]; intros storage h Hh; [done|].
    simpl in *. destruct (rlp_Split_content value); [|by apply IH].
    rewrite IH by done. rewrite Hkey. simpl. by rewrite lookup_insert_ne.
Qed.
End DumpEdges.

Lemma sample_account_leaf (t : SampleTrie) (max : Z) (only : bool) key (a : Address) :
  sample_preimages t !! key = Some ("a"%byte :: a) →
  @account_leaf _ sample_env t (sample_config only max) (key, sample_account_value).
Proof.
  intros Hkey.
  exists (tail sample_account_value),
    (mkStateAccount 1 (Some 100) (replicate 32 "000"%byte) (replicate 32 "000"%byte)),
    ("a"%byte :: a).
  split; [reflexivity|]. split; [vm_compute; reflexivity|].
  split; [exact Hkey|]. split; [discriminate|].
  split; intros Hskip; discriminate Hskip.
Qed.

Lemma dump_accounts_paginate_witness :
  ∃ st, @DumpToCollector _ _ sample_env iterativeDump sample_trie_three_accounts []
          (Some (sample_config false 2)) = Done st ∧
        accounts st = 2 ∧ nextKey st = Some key3 ∧ length (collector st) = 3%nat.
Proof.
  destruct (@dump_accounts_paginate _ sample_env sample_trie_three_accounts []
              (sample_config false 2))
    as (st & Hrun & Hacc & Hnext & _ & _ & Hlen).
  - change (@trie_leaves _ sample_env sample_trie_three_accounts (Start (sample_config false 2)))
      with [(key1, sample_account_value); (key2, sample_account_value);
            (key3, sample_account_value)].
    repeat (apply Forall_cons; split; [eapply sample_account_leaf; vm_compute; reflexivity|]).
    apply Forall_nil_2.
  - simpl. lia.
  - exists st. split; [exact Hrun|]. split; [exact Hacc|]. split; [exact Hnext | exact Hlen].
Defined.

Lemma dump_all_leaves_witness :
  ∃ st, @DumpToCollector _ _ sample_env iterativeDump sample_trie_pod_account []
          (Some (sample_config false 0)) = Done st ∧
        accounts st + pods st = 2 ∧ nextKey st = None ∧ length (collector st) = 3%nat.
Proof.
  destruct (@dump_all_leaves _ sample_env sample_trie_pod_account [] (sample_config false 0))
    as (st & Hrun & Hsum & Hnext & _ & Hlen).
  - change (@trie_leaves _ sample_env sample_trie_pod_account (Start (sample_config false 0)))
      with [(key1, sample_pod_value); (key2, sample_account_value)].
    apply Forall_cons; split; [|apply Forall_cons; split; [|apply Forall_nil_2]].
    + right.
      exists (tail sample_pod_value), (mkStatePod 1000000 0 []), ("p"%byte :: big_Bytes 42).
      split; [reflexivity|]. split; [vm_compute; reflexivity|].
      split; [vm_compute; reflexivity | discriminate].
    + left. eapply sample_account_leaf. vm_compute. reflexivity.
  - reflexivity.
  - vm_compute. reflexivity.
  - exists st. split; [exact Hrun|]. split; [exact Hsum|]. split; [exact Hnext | exact Hlen].
Defined.

Lemma dump_skips_accounts_without_preimage_witness :
  @DumpToCollector _ _ sample_env iterativeDump sample_trie_three_accounts_no_preimage []
    (Some (sample_config true 1)) =
  Done (mkDumpState [RootLine (replicate 32 "000"%byte)] 3 0 0 None).
Proof.
  apply (@dump_skips_accounts_without_preimage _ _ sample_env iterativeDump
           sample_trie_three_accounts_no_preimage [] (sample_config true 1)).
  - reflexivity.
  - change (@trie_leaves _ sample_env sample_trie_three_accounts_no_preimage
              (Start (sample_config true 1)))
      with [(key1, sample_account_value); (key2, sample_account_value);
            (key3, sample_account_value)].
    repeat (apply Forall_cons; split;
            [exists (tail sample_account_value),
               (mkStateAccount 1 (Some 100) (replicate 32 "000"%byte)
                  (replicate 32 "000"%byte));
             split; [reflexivity|]; split; [vm_compute; reflexivity | reflexivity]|]).
    apply Forall_nil_2.
  - vm_compute. reflexivity.
Defined.

Lemma dump_malformed_leaf_witness :
  @DumpToCollector _ _ sample_env iterativeDump sample_trie_empty_value []
    (Some (sample_config false 0)) = Panicked index_out_of_range.
Proof.
  apply (proj1 (@dump_malformed_leaf _ _ sample_env iterativeDump sample_trie_empty_value []
                  (sample_config false 0) key1 [] [] eq_refl)).
  reflexivity.
Defined.

Lemma dump_storage_missing_preimages_witness :
  @dump_storage _ sample_env sample_trie_empty_value
    [(key1, rlp_string ["001"%byte]); (key2, rlp_string ["002"%byte])] ∅ !! key1 = None.
Proof.
  rewrite (proj2 (@dump_storage_missing_preimages _ sample_env sample_trie_empty_value
                    [(key1, rlp_string ["001"%byte]); (key2, rlp_string ["002"%byte])] ∅)).
  - reflexivity.
  - repeat constructor.
  - intros Heq. vm_compute in Heq. discriminate Heq.
Defined.
